(** * Ink!FundMe: the campaign escrow contract and its token ledger

    A shallow embedding of the ink! contract [InkFundMe] (storage struct,
    queries, [create_campaign], [contribute], [finalize], [claim_refund]) over
    a fungible-token ledger and of the display helpers of its web client,
    followed by the properties of the escrow engine and of the helpers. *)

From Stdlib Require Import NArith Lia Ascii.
From stdpp Require Import gmap list strings fin_maps.
From stdpp Require Import pretty.

Local Open Scope N_scope.

(** ** Machine integers

    [u32], [u64] and [U256] values are natural numbers; the bounds of [u32]
    and [U256] are written out where the code adds to such a value (time
    stamps, the only [u64] values, are compared and never added to).
    Identities ([Address], 20 bytes) are numbers as well. *)

Abbreviation Address := N (only parsing).

Definition u32_max : N := 2 ^ 32 - 1.
Definition u256_max : N := 2 ^ 256 - 1.

(** [U256::checked_add]: [None] when the sum leaves the range. *)
Definition checked_add (a b : N) : option N :=
  if a + b <=? u256_max then Some (a + b) else None.

(** ** Errors and outcomes *)

Inductive Error : Set :=
  | InvalidParameters
  | CampaignNotFound
  | CampaignCompleted
  | DeadlineReached
  | DeadlineNotReached
  | OnlyOwner
  | CampaignNotCompleted
  | CampaignSuccessful
  | NoContribution
  | Overflow
  | InsufficientBalance
  | InsufficientAllowance.

#[export] Instance Error_eq_dec : EqDecision Error.
Proof. solve_decision. Defined.

(** What a call hands back: [Ok v] and [Err e] are the two sides of the Rust
    [Result]; [Panic] is an abort (a failed [unwrap], an arithmetic operator
    leaving its range), which carries no typed error. *)
Inductive Outcome (A : Type) : Type :=
  | Ok (a : A)
  | Err (e : Error)
  | Panic.
Arguments Ok {A} a.
Arguments Err {A} e.
Arguments Panic {A}.

(** ** Data model *)

Record Campaign : Type := {
  id : N;
  title : string;
  description : string;
  goal : N;
  deadline : N;
  owner : Address;
  raised : N;
  completed : bool
}.

Inductive Event : Type :=
  | CampaignCreated (id : N) (owner : Address) (goal : N) (deadline : N)
  | ContributionMade (campaign_id : N) (contributor : Address) (amount : N)
  | CampaignFinalized (campaign_id : N) (success : bool)
  | RefundClaimed (campaign_id : N) (contributor : Address) (amount : N).

(** ** The token ledger *)

Record TokenLedger : Type := {
  balances : gmap Address N;
  allowances : gmap (Address * Address) N;
  total_supply : N
}.

Module Token.

Definition balance_of (t : TokenLedger) (who : Address) : N :=
  default 0 (balances t !! who).

Definition allowance (t : TokenLedger) (holder spender : Address) : N :=
  default 0 (allowances t !! (holder, spender)).

Definition set_balance (who : Address) (v : N) (t : TokenLedger) : TokenLedger :=
  {| balances := <[who := v]> (balances t);
     allowances := allowances t;
     total_supply := total_supply t |}.

Definition set_allowance (holder spender : Address) (v : N) (t : TokenLedger)
  : TokenLedger :=
  {| balances := balances t;
     allowances := <[(holder, spender) := v]> (allowances t);
     total_supply := total_supply t |}.

(** Modelled from the spec: the token contract is not part of the sources;
    [mint] raises the balance of [to] and the total supply by [amount] and
    fails with [Overflow] if either would leave the integer range. *)
Definition mint (to : Address) (amount : N) (t : TokenLedger) : Outcome TokenLedger :=
  if (u256_max <? balance_of t to + amount) || (u256_max <? total_supply t + amount)
  then Err Overflow
  else Ok {| balances := <[to := balance_of t to + amount]> (balances t);
             allowances := allowances t;
             total_supply := total_supply t + amount |}.

(** Modelled from the spec: the token contract is not part of the sources;
    [transfer] fails with [InsufficientBalance] if the balance of [from] is
    below [amount], otherwise takes [amount] from [from] and gives it to
    [to]. *)
Definition transfer (from to : Address) (amount : N) (t : TokenLedger)
  : Outcome TokenLedger :=
  if balance_of t from <? amount then Err InsufficientBalance
  else
    let t1 := set_balance from (balance_of t from - amount) t in
    Ok (set_balance to (balance_of t1 to + amount) t1).

(** Modelled from the spec: the token contract is not part of the sources;
    [approve] replaces the allowance of [spender] over the funds of
    [holder]. *)
Definition approve (holder spender : Address) (amount : N) (t : TokenLedger)
  : Outcome TokenLedger :=
  Ok (set_allowance holder spender amount t).

(** Modelled from the spec: the token contract is not part of the sources;
    [transfer_from] fails with [InsufficientAllowance] if the allowance
    granted by [from] to [spender] is below [amount], or as [transfer]
    does; on success the allowance drops by [amount] and the balance
    moves. *)
Definition transfer_from (spender from to : Address) (amount : N) (t : TokenLedger)
  : Outcome TokenLedger :=
  if allowance t from spender <? amount then Err InsufficientAllowance
  else
    match transfer from to amount t with
    | Ok t1 => Ok (set_allowance from spender (allowance t from spender - amount) t1)
    | Err e => Err e
    | Panic => Panic
    end.

End Token.

(** ** Contract storage

    [token_contract] holds the state of the token contract the engine refers
    to, [emitted] the events handed to the environment so far. *)

Record InkFundMe : Type := {
  token_contract : TokenLedger;
  campaigns : list Campaign;
  contributions : gmap (N * Address) N;
  next_campaign_id : N;
  emitted : list Event
}.

(** The environment of one call: [self.env().caller()],
    [self.env().block_timestamp()] and [self.env().account_id()]. *)
Record Env : Type := {
  caller : Address;
  block_timestamp : N;
  account_id : Address
}.

(** ** Calls on [&mut self]

    A message runs on the storage and hands back its outcome together with
    the storage as its body left it. The hosting environment commits that
    storage when the message returns [Ok] and discards it when the message
    returns an error or aborts; what is proved below of the storage handed
    back by a call that does not succeed is proved of the writes of the
    body itself, before any such rollback. *)

Definition M (A : Type) : Type := InkFundMe -> Outcome A * InkFundMe.

Definition ret {A} (a : A) : M A := fun s => (Ok a, s).
Definition fail {A} (e : Error) : M A := fun s => (Err e, s).
Definition panic {A} : M A := fun s => (Panic, s).

Definition bind {A B} (m : M A) (k : A -> M B) : M B :=
  fun s =>
    match m s with
    | (Ok a, s1) => k a s1
    | (Err e, s1) => (Err e, s1)
    | (Panic, s1) => (Panic, s1)
    end.

Notation "x <- m ;; k" := (bind m (fun x => k))
  (at level 100, m at next level, right associativity).
Notation "m ;;; k" := (bind m (fun _ => k))
  (at level 100, right associativity).

Definition gets {A} (f : InkFundMe -> A) : M A := fun s => (Ok (f s), s).
Definition modify (f : InkFundMe -> InkFundMe) : M unit := fun s => (Ok tt, f s).

(** [opt.ok_or(e)?] *)
Definition ok_or {A} (o : option A) (e : Error) : M A :=
  match o with
  | Some a => ret a
  | None => fail e
  end.

Definition set_token_contract (t : TokenLedger) (s : InkFundMe) : InkFundMe :=
  {| token_contract := t;
     campaigns := campaigns s;
     contributions := contributions s;
     next_campaign_id := next_campaign_id s;
     emitted := emitted s |}.

Definition set_campaigns (l : list Campaign) (s : InkFundMe) : InkFundMe :=
  {| token_contract := token_contract s;
     campaigns := l;
     contributions := contributions s;
     next_campaign_id := next_campaign_id s;
     emitted := emitted s |}.

Definition set_contributions (m : gmap (N * Address) N) (s : InkFundMe) : InkFundMe :=
  {| token_contract := token_contract s;
     campaigns := campaigns s;
     contributions := m;
     next_campaign_id := next_campaign_id s;
     emitted := emitted s |}.

Definition set_next_campaign_id (n : N) (s : InkFundMe) : InkFundMe :=
  {| token_contract := token_contract s;
     campaigns := campaigns s;
     contributions := contributions s;
     next_campaign_id := n;
     emitted := emitted s |}.

Definition set_emitted (l : list Event) (s : InkFundMe) : InkFundMe :=
  {| token_contract := token_contract s;
     campaigns := campaigns s;
     contributions := contributions s;
     next_campaign_id := next_campaign_id s;
     emitted := l |}.

Definition set_raised (v : N) (c : Campaign) : Campaign :=
  {| id := id c; title := title c; description := description c;
     goal := goal c; deadline := deadline c; owner := owner c;
     raised := v; completed := completed c |}.

Definition set_goal (g : N) (c : Campaign) : Campaign :=
  {| id := id c; title := title c; description := description c;
     goal := g; deadline := deadline c; owner := owner c;
     raised := raised c; completed := completed c |}.

Definition set_completed (b : bool) (c : Campaign) : Campaign :=
  {| id := id c; title := title c; description := description c;
     goal := goal c; deadline := deadline c; owner := owner c;
     raised := raised c; completed := b |}.

(** [self.env().emit_event(..)] *)
Definition emit_event (e : Event) : M unit :=
  modify (fun s => set_emitted (emitted s ++ [e]) s).

(** A call of the token contract followed by [?]: its error is handed on
    unchanged, its new ledger replaces the old one. *)
Definition call_token (f : TokenLedger -> Outcome TokenLedger) : M unit :=
  fun s =>
    match f (token_contract s) with
    | Ok t => (Ok tt, set_token_contract t s)
    | Err e => (Err e, s)
    | Panic => (Panic, s)
    end.

(** [self.campaigns.len()] *)
Definition campaigns_len (s : InkFundMe) : N := N.of_nat (length (campaigns s)).

(** [self.campaigns.push(&campaign)]: the vector is indexed by [u32] and
    aborts when its length would leave that range. *)
Definition campaigns_push (c : Campaign) : M unit :=
  fun s =>
    if u32_max <=? campaigns_len s then (Panic, s)
    else (Ok tt, set_campaigns (campaigns s ++ [c]) s).

(** [self.next_campaign_id += 1] on a [u32], built with overflow checks. *)
Definition next_campaign_id_incr : M unit :=
  fun s =>
    if u32_max <=? next_campaign_id s then (Panic, s)
    else (Ok tt, set_next_campaign_id (next_campaign_id s + 1) s).

(** The [+] of [U256]: aborts when the sum leaves the range. *)
Definition u256_add (a b : N) : M N :=
  if a + b <=? u256_max then ret (a + b) else panic.

(** Modelled from the spec: the helper [get_campaign_mut] is not part of the
    sources; it loads the campaign and fails with [CampaignNotFound] if it is
    absent. The record it hands back is a mutable reference into
    [self.campaigns]: an assignment to one of its fields is a write to
    the stored record, see [write_campaign]. *)
Definition get_campaign_mut (campaign_id : N) : M Campaign :=
  fun s =>
    match campaigns s !! N.to_nat campaign_id with
    | Some c => (Ok c, s)
    | None => (Err CampaignNotFound, s)
    end.

(** An assignment through the reference handed out by [get_campaign_mut]. *)
Definition write_campaign (campaign_id : N) (c : Campaign) : M unit :=
  modify (fun s => set_campaigns (<[N.to_nat campaign_id := c]> (campaigns s)) s).

(** ** Queries *)

Definition get_campaign (s : InkFundMe) (campaign_id : N) : Outcome Campaign :=
  if campaigns_len s <=? campaign_id then Err CampaignNotFound
  else
    match campaigns s !! N.to_nat campaign_id with
    | Some c => Ok c
    | None => Panic
    end.

Definition get_all_campaigns (s : InkFundMe) : list Campaign :=
  omap (fun i => campaigns s !! i) (seq 0 (length (campaigns s))).

Definition get_contribution (s : InkFundMe) (campaign_id : N) (contributor : Address) : N :=
  default 0 (contributions s !! (campaign_id, contributor)).

Definition get_campaign_count (s : InkFundMe) : N := campaigns_len s.

(** ** Messages *)

Definition create_campaign (env : Env) (title0 description0 : string)
    (goal0 deadline0 : N) : M N :=
  if (goal0 =? 0) || (deadline0 <=? block_timestamp env) then fail InvalidParameters
  else
    campaign_id <- gets next_campaign_id ;;
    let owner0 := caller env in
    let campaign :=
      {| id := campaign_id; title := title0; description := description0;
         goal := goal0; deadline := deadline0; owner := owner0;
         raised := 0; completed := false |} in
    campaigns_push campaign ;;;
    next_campaign_id_incr ;;;
    emit_event (CampaignCreated campaign_id owner0 goal0 deadline0) ;;;
    ret campaign_id.

Definition contribute (env : Env) (campaign_id amount : N) : M unit :=
  campaign <- get_campaign_mut campaign_id ;;
  let caller0 := caller env in
  if completed campaign then fail CampaignCompleted
  else if deadline campaign <? block_timestamp env then fail DeadlineReached
  else
    call_token (Token.transfer_from (account_id env) caller0 (account_id env) amount) ;;;
    raised' <- ok_or (checked_add (raised campaign) amount) Overflow ;;
    write_campaign campaign_id (set_raised raised' campaign) ;;;
    contribution <- gets (fun s => default 0 (contributions s !! (campaign_id, caller0))) ;;
    total <- u256_add contribution amount ;;
    modify (fun s => set_contributions
                       (<[(campaign_id, caller0) := total]> (contributions s)) s) ;;;
    emit_event (ContributionMade campaign_id caller0 amount) ;;;
    ret tt.

Definition finalize (env : Env) (campaign_id : N) : M unit :=
  campaign <- get_campaign_mut campaign_id ;;
  if negb (bool_decide (caller env = owner campaign)) then fail OnlyOwner
  else if completed campaign then fail CampaignCompleted
  else if block_timestamp env <=? deadline campaign then fail DeadlineNotReached
  else
    write_campaign campaign_id (set_completed true campaign) ;;;
    let success := goal campaign <=? raised campaign in
    (if success
     then call_token (Token.transfer (account_id env) (owner campaign) (raised campaign))
     else ret tt) ;;;
    emit_event (CampaignFinalized campaign_id success) ;;;
    ret tt.

Definition claim_refund (env : Env) (campaign_id : N) : M unit :=
  campaign <- get_campaign_mut campaign_id ;;
  let caller0 := caller env in
  if negb (completed campaign) then fail CampaignNotCompleted
  else if goal campaign <=? raised campaign then fail CampaignSuccessful
  else
    contribution <- gets (fun s => default 0 (contributions s !! (campaign_id, caller0))) ;;
    if contribution =? 0 then fail NoContribution
    else
      modify (fun s => set_contributions
                         (<[(campaign_id, caller0) := 0]> (contributions s)) s) ;;;
      call_token (Token.transfer (account_id env) caller0 contribution) ;;;
      emit_event (RefundClaimed campaign_id caller0 contribution) ;;;
      ret tt.

(** ** The constructor and runs of the engine *)

(** [new(token_address)]: an empty store over the token contract at hand. *)
Definition new (t : TokenLedger) : InkFundMe :=
  {| token_contract := t;
     campaigns := [];
     contributions := ∅;
     next_campaign_id := 0;
     emitted := [] |}.

(** What a caller may do in one transaction: one of the four messages of the
    engine, or a call of the token contract in their own name. *)
Inductive Op : Type :=
  | CreateCampaign (title0 description0 : string) (goal0 deadline0 : N)
  | Contribute (campaign_id amount : N)
  | Finalize (campaign_id : N)
  | ClaimRefund (campaign_id : N)
  | Mint (to amount : N)
  | Approve (spender amount : N)
  | Transfer (to amount : N)
  | TransferFrom (from to amount : N).

Definition run (env : Env) (op : Op) : M unit :=
  match op with
  | CreateCampaign t d g dl => _ <- create_campaign env t d g dl ;; ret tt
  | Contribute c a => contribute env c a
  | Finalize c => finalize env c
  | ClaimRefund c => claim_refund env c
  | Mint to a => call_token (Token.mint to a)
  | Approve sp a => call_token (Token.approve (caller env) sp a)
  | Transfer to a => call_token (Token.transfer (caller env) to a)
  | TransferFrom from to a => call_token (Token.transfer_from (caller env) from to a)
  end.

(** One transaction: who calls, at what time, and what. *)
Record Call : Type := {
  call_caller : Address;
  call_time : N;
  call_op : Op
}.

Definition env_of (self : Address) (c : Call) : Env :=
  {| caller := call_caller c; block_timestamp := call_time c; account_id := self |}.

(** The state after a sequence of successful transactions of the engine
    deployed at [self]; [None] as soon as one of them does not succeed. *)
Fixpoint exec (self : Address) (tr : list Call) (s : InkFundMe) : option InkFundMe :=
  match tr with
  | [] => Some s
  | c :: tr' =>
      match run (env_of self c) (call_op c) s with
      | (Ok _, s') => exec self tr' s'
      | _ => None
      end
  end.

(** The sum of the contribution entries of one campaign: an entry counts
    when its key names the campaign. *)
Definition ledger_step (campaign_id : N) (k : N * Address) (v acc : N) : N :=
  if decide (k.1 = campaign_id) then v + acc else acc.

Definition ledger_sum (m : gmap (N * Address) N) (campaign_id : N) : N :=
  map_fold (ledger_step campaign_id) 0 m.

(** ** Runs on concrete data

    The campaign of alice has goal 1000 and deadline 110; bob starts with
    2000 tokens, all of them approved to the engine. *)

Module Scenario.

Definition engine : Address := 100.
Definition alice : Address := 1.
Definition bob : Address := 2.

Definition start : TokenLedger :=
  {| balances := {[ bob := 2000 ]};
     allowances := {[ (bob, engine) := 2000 ]};
     total_supply := 2000 |}.

Definition call (who : Address) (now : N) (op : Op) : Call :=
  {| call_caller := who; call_time := now; call_op := op |}.

(** One contribution of 300, then finalized after the deadline, then
    refunded. *)
Definition funded : list Call :=
  [ call alice 10 (CreateCampaign "well" "a village well" 1000 110);
    call bob 30 (Contribute 0 300) ].

Definition failed : list Call := funded ++ [ call alice 111 (Finalize 0) ].

Definition refunded : list Call := failed ++ [ call bob 120 (ClaimRefund 0) ].

(** Contributions of 600 and 500, then finalized after the deadline. *)
Definition overfunded : list Call :=
  [ call alice 10 (CreateCampaign "well" "a village well" 1000 110);
    call bob 30 (Contribute 0 600);
    call bob 40 (Contribute 0 500) ].

Definition paid_out : list Call := overfunded ++ [ call alice 111 (Finalize 0) ].

Definition well (r : N) : Campaign :=
  {| id := 0; title := "well"; description := "a village well"; goal := 1000;
     deadline := 110; owner := alice; raised := r; completed := false |}.

(** carol holds no tokens and has approved none. *)
Definition carol : Address := 3.

End Scenario.

(** * Notions used in the properties *)

(** ** The state a successful message leaves behind *)

(** After [create_campaign]. *)
Definition after_create (env : Env) (t d : string) (g dl : N) (s : InkFundMe) : InkFundMe :=
  {| token_contract := token_contract s;
     campaigns := campaigns s ++
       [{| id := next_campaign_id s; title := t; description := d; goal := g;
           deadline := dl; owner := caller env; raised := 0; completed := false |}];
     contributions := contributions s;
     next_campaign_id := next_campaign_id s + 1;
     emitted := emitted s ++ [CampaignCreated (next_campaign_id s) (caller env) g dl] |}.

(** After [contribute] to the campaign [c] stored under [cid], the token
    contract having moved to [t]. *)
Definition after_contribute (env : Env) (cid amount : N) (c : Campaign) (t : TokenLedger)
    (s : InkFundMe) : InkFundMe :=
  {| token_contract := t;
     campaigns := <[N.to_nat cid := set_raised (raised c + amount) c]> (campaigns s);
     contributions :=
       <[(cid, caller env) := get_contribution s cid (caller env) + amount]>
         (contributions s);
     next_campaign_id := next_campaign_id s;
     emitted := emitted s ++ [ContributionMade cid (caller env) amount] |}.

(** After [finalize] of the campaign [c] stored under [cid]; [t] is the
    ledger after the payout, or the ledger as it was when the goal was
    missed. *)
Definition after_finalize (env : Env) (cid : N) (c : Campaign) (t : TokenLedger)
    (s : InkFundMe) : InkFundMe :=
  {| token_contract := t;
     campaigns := <[N.to_nat cid := set_completed true c]> (campaigns s);
     contributions := contributions s;
     next_campaign_id := next_campaign_id s;
     emitted := emitted s ++ [CampaignFinalized cid (goal c <=? raised c)] |}.

(** After [claim_refund], the token contract having moved to [t]. *)
Definition after_refund (env : Env) (cid : N) (t : TokenLedger) (s : InkFundMe) : InkFundMe :=
  {| token_contract := t;
     campaigns := campaigns s;
     contributions := <[(cid, caller env) := 0]> (contributions s);
     next_campaign_id := next_campaign_id s;
     emitted := emitted s ++
       [RefundClaimed cid (caller env) (get_contribution s cid (caller env))] |}.

(** The token operation behind a call that is not a message of the engine. *)
Definition token_op (env : Env) (op : Op) : option (TokenLedger -> Outcome TokenLedger) :=
  match op with
  | Mint to a => Some (Token.mint to a)
  | Approve sp a => Some (Token.approve (caller env) sp a)
  | Transfer to a => Some (Token.transfer (caller env) to a)
  | TransferFrom from to a => Some (Token.transfer_from (caller env) from to a)
  | _ => None
  end.

(** One successful transaction, by cases. *)
Inductive step (env : Env) (s : InkFundMe) : Op -> InkFundMe -> Prop :=
  | step_create t d g dl :
      g <> 0 -> block_timestamp env < dl ->
      campaigns_len s < u32_max -> next_campaign_id s < u32_max ->
      step env s (CreateCampaign t d g dl) (after_create env t d g dl s)
  | step_contribute cid amount c t :
      campaigns s !! N.to_nat cid = Some c ->
      completed c = false ->
      block_timestamp env <= deadline c ->
      Token.transfer_from (account_id env) (caller env) (account_id env) amount
        (token_contract s) = Ok t ->
      raised c + amount <= u256_max ->
      get_contribution s cid (caller env) + amount <= u256_max ->
      step env s (Contribute cid amount) (after_contribute env cid amount c t s)
  | step_finalize cid c t :
      campaigns s !! N.to_nat cid = Some c ->
      caller env = owner c ->
      completed c = false ->
      deadline c < block_timestamp env ->
      (if goal c <=? raised c
       then Token.transfer (account_id env) (owner c) (raised c) (token_contract s) = Ok t
       else t = token_contract s) ->
      step env s (Finalize cid) (after_finalize env cid c t s)
  | step_refund cid c t :
      campaigns s !! N.to_nat cid = Some c ->
      completed c = true ->
      raised c < goal c ->
      get_contribution s cid (caller env) <> 0 ->
      Token.transfer (account_id env) (caller env)
        (get_contribution s cid (caller env)) (token_contract s) = Ok t ->
      step env s (ClaimRefund cid) (after_refund env cid t s)
  | step_token op f t :
      token_op env op = Some f ->
      f (token_contract s) = Ok t ->
      step env s op (set_token_contract t s).

(** ** Invariants *)

(** The store: the counter is the number of campaigns, which fits a [u32];
    a campaign carries its index as id; every entry belongs to a stored
    campaign; the entries of a campaign add up to at most its [raised], and
    to exactly its [raised] while it is not completed. *)
Record store_inv (s : InkFundMe) : Prop := {
  inv_next : next_campaign_id s = campaigns_len s;
  inv_len : campaigns_len s <= u32_max;
  inv_ids : forall i c, campaigns s !! i = Some c -> id c = N.of_nat i;
  inv_keys : forall k v, contributions s !! k = Some v -> k.1 < campaigns_len s;
  inv_sum : forall i c, campaigns s !! i = Some c ->
    ledger_sum (contributions s) (N.of_nat i) <= raised c /\
    (completed c = false -> ledger_sum (contributions s) (N.of_nat i) = raised c)
}.

(** As long as no refund of campaign [cid] was claimed, its entries add up to
    its [raised]. *)
Definition sum_matches (cid : N) (s : InkFundMe) : Prop :=
  store_inv s /\
  forall c, campaigns s !! N.to_nat cid = Some c ->
    ledger_sum (contributions s) cid = raised c.

(** The caller [who] has had the refund of the failed campaign [cid], or
    never had anything to claim. *)
Definition refund_spent (cid : N) (who : Address) (s : InkFundMe) : Prop :=
  exists c, campaigns s !! N.to_nat cid = Some c /\
    completed c = true /\ raised c < goal c /\ get_contribution s cid who = 0.

(** ** The ledger and what the escrow account owes *)

Definition map_sum (m : gmap Address N) : N :=
  map_fold (fun _ v acc => v + acc) 0 m.

Definition sum_balances (t : TokenLedger) : N := map_sum (balances t).

(** An open campaign is owed its [raised]; a campaign finalized below its
    goal is owed the entries not yet refunded; a campaign finalized at or
    above its goal has been paid out. *)
Definition due (m : gmap (N * Address) N) (i : nat) (c : Campaign) : N :=
  if completed c
  then (if goal c <=? raised c then 0 else ledger_sum m (N.of_nat i))
  else raised c.

Fixpoint total_due_from (m : gmap (N * Address) N) (i : nat) (l : list Campaign) : N :=
  match l with
  | [] => 0
  | c :: l' => due m i c + total_due_from m (S i) l'
  end.

Definition total_due (s : InkFundMe) : N :=
  total_due_from (contributions s) 0 (campaigns s).

(** The balances add up to at most a total supply that is in range. *)
Definition supply_ok (t : TokenLedger) : Prop :=
  sum_balances t <= total_supply t /\ total_supply t <= u256_max.

(** The escrow account has granted no allowance. *)
Definition no_allowance (self : Address) (t : TokenLedger) : Prop :=
  forall sp, Token.allowance t self sp = 0.

Definition ledger_ok (self : Address) (t : TokenLedger) : Prop :=
  supply_ok t /\ no_allowance self t.

(** The store and the ledger are in order and the escrow account holds what
    it owes. *)
Record sound (self : Address) (s : InkFundMe) : Prop := {
  sound_store : store_inv s;
  sound_ledger : ledger_ok self (token_contract s);
  sound_solvent : total_due s <= Token.balance_of (token_contract s) self
}.


(** Case analysis over the operation of a call: one case per message of the
    engine and per call of the token contract, [run] unfolded. *)
Ltac op_cases op :=
  destruct op as [t d g dl|cid a|cid|cid|to a|sp a|to a|from to a]; cbn [run].

(** * Further notions: what a call may do to a campaign *)

(** What may happen to a stored campaign between two states: its id, title,
    description, goal, deadline and owner stay, [raised] does not go down,
    and once the campaign is completed nothing changes any more. *)
Definition evolves (c c' : Campaign) : Prop :=
  id c' = id c /\ title c' = title c /\ description c' = description c /\
  goal c' = goal c /\ deadline c' = deadline c /\ owner c' = owner c /\
  raised c <= raised c' /\
  (completed c = true -> c' = c).

(** ** Ranges

    What is stored fits the types of the code: a goal is positive, a
    deadline is later than the time [0], [raised] and every contribution
    entry fit a [U256]. *)
Definition in_range (s : InkFundMe) : Prop :=
  (forall i c, campaigns s !! i = Some c ->
     goal c <> 0 /\ 0 < deadline c /\ raised c <= u256_max) /\
  (forall k v, contributions s !! k = Some v -> v <= u256_max).

(** ** Reading the event log *)

(** The arguments of the event of a creation. *)
Definition created_of (e : Event) : option (N * Address * N * N) :=
  match e with
  | CampaignCreated i o g d => Some (i, o, g, d)
  | _ => None
  end.

Definition created_in (log : list Event) : list (N * Address * N * N) :=
  omap created_of log.

(** What a campaign shows of its creation. *)
Definition header (c : Campaign) : N * Address * N * N :=
  (id c, owner c, goal c, deadline c).

(** The amount an event reports as contributed to, or refunded from, the
    campaign [cid]. *)
Definition contributed_of (cid : N) (e : Event) : N :=
  match e with
  | ContributionMade i _ a => if decide (i = cid) then a else 0
  | _ => 0
  end.

Definition refunded_of (cid : N) (e : Event) : N :=
  match e with
  | RefundClaimed i _ a => if decide (i = cid) then a else 0
  | _ => 0
  end.

Definition log_total (f : Event -> N) (log : list Event) : N :=
  foldr (fun e acc => f e + acc) 0 log.

Definition contributed_in (cid : N) (log : list Event) : N :=
  log_total (contributed_of cid) log.

Definition refunded_in (cid : N) (log : list Event) : N :=
  log_total (refunded_of cid) log.

(** The success flags of the finalizations of the campaign [cid], in the
    order of the log. *)
Definition finalized_of (cid : N) (e : Event) : option bool :=
  match e with
  | CampaignFinalized i b => if decide (i = cid) then Some b else None
  | _ => None
  end.

Definition finalized_in (cid : N) (log : list Event) : list bool :=
  omap (finalized_of cid) log.

(** The amount an event reports as contributed by, or refunded to, the
    contributor [who] of the campaign [cid]. *)
Definition contributed_by (cid : N) (who : Address) (e : Event) : N :=
  match e with
  | ContributionMade i w a => if decide ((i, w) = (cid, who)) then a else 0
  | _ => 0
  end.

Definition refunded_to (cid : N) (who : Address) (e : Event) : N :=
  match e with
  | RefundClaimed i w a => if decide ((i, w) = (cid, who)) then a else 0
  | _ => 0
  end.

(** The log and the store tell the same story: the creations in the log are
    the stored campaigns; the contributions logged for a campaign add up to
    its [raised]; a campaign is completed exactly when its finalization is
    in the log, once, with the flag [raised >= goal]; nothing is logged for
    an id not yet given out; and what was contributed to a campaign is
    either still in its entries or was refunded. *)
Record log_inv (s : InkFundMe) : Prop := {
  log_created : created_in (emitted s) = header <$> campaigns s;
  log_campaign : forall i c, campaigns s !! i = Some c ->
    contributed_in (N.of_nat i) (emitted s) = raised c /\
    finalized_in (N.of_nat i) (emitted s) =
      (if completed c then [goal c <=? raised c] else []);
  log_unused : forall cid, campaigns_len s <= cid ->
    contributed_in cid (emitted s) = 0 /\ finalized_in cid (emitted s) = [];
  log_entries : forall cid,
    ledger_sum (contributions s) cid + refunded_in cid (emitted s) =
    contributed_in cid (emitted s)
}.

(** The parts of the store a message has not written: the fields are read off
    and the lookups beside the written key or index are simplified. *)
Ltac frame_goal :=
  cbn [snd campaigns contributions next_campaign_id token_contract
       set_campaigns set_contributions set_token_contract
       after_create after_contribute after_finalize after_refund];
  rewrite ?length_insert;
  repeat split; try done;
  try (intros; rewrite lookup_insert_ne by congruence; done);
  try (intros; rewrite list_lookup_insert_ne by congruence; done).

(** Every refund in the log was asked for by a contributor with an entry in
    a campaign that is completed and below its goal. *)
Definition refunds_justified (s : InkFundMe) : Prop :=
  forall cid who a, RefundClaimed cid who a ∈ emitted s ->
    a <> 0 /\
    exists c, campaigns s !! N.to_nat cid = Some c /\
      completed c = true /\ raised c < goal c.

(** * The helpers of the frontend

    The display helpers and the campaign tabs of the web client, which reads
    the engine through [get_campaign_count] and [get_all_campaigns]. *)

Module Frontend.

(** [formatTokenAmount(amount, decimals)]. [amount] is the array of 64-bit
    limbs the client holds for a [U256], lowest limb first; [amount[0] || 0n]
    is its first limb, and [0n] when there is none; the quotient of two
    bigints rounds towards zero, and [toString] writes it in decimal.
    [decimals] is a natural number: [BigInt(decimals)] and [**] throw on
    anything else. *)
Definition formatTokenAmount (amount : list Z) (decimals : N) : string :=
  let value := default 0%Z (amount !! 0%nat) in
  let divisor := (10 ^ Z.of_N decimals)%Z in
  pretty (Z.quot value divisor).

(** [b.toString(16)] for an element of a [Uint8Array]: one or two hex
    digits, in lower case. *)
Definition hex_digit (n : nat) : Ascii.ascii :=
  default "0"%char (String.list_ascii_of_string "0123456789abcdef" !! n).

Definition toString16 (b : Byte.byte) : list Ascii.ascii :=
  let n := N.to_nat (Byte.to_N b) in
  if (n <? 16)%nat then [hex_digit n]
  else [hex_digit (n / 16)%nat; hex_digit (n mod 16)%nat].

(** [s.padStart(len, pad)] for a pad of one character. *)
Definition padStart (len : nat) (pad : Ascii.ascii) (s : list Ascii.ascii)
  : list Ascii.ascii :=
  replicate (len - length s) pad ++ s.

(** [Array.from(address).map(..).join("")] *)
Definition hex_of (address : list Byte.byte) : list Ascii.ascii :=
  concat (map (fun b => padStart 2 "0"%char (toString16 b)) address).

(** [formatAddress(address)]: [hex.slice(0, 6)] is the first six characters
    of [hex], [hex.slice(-4)] its last four, or all of [hex] if it is
    shorter. *)
Definition formatAddress (address : list Byte.byte) : string :=
  let hex := hex_of address in
  String.string_of_list_ascii
    (String.list_ascii_of_string "0x" ++ take 6 hex ++
     String.list_ascii_of_string "..." ++ drop (length hex - 4) hex).

(** [myCampaigns]: none without a signer, otherwise the campaigns whose
    owner is the signer. The hex strings of two addresses are equal exactly
    when the addresses are. *)
Definition myCampaigns (userEthAddress : option Address) (campaigns : list Campaign)
  : list Campaign :=
  match userEthAddress with
  | None => []
  | Some user => filter (fun c => owner c = user) campaigns
  end.

Definition myCampaignCount (userEthAddress : option Address) (campaigns : list Campaign)
  : nat :=
  length (myCampaigns userEthAddress campaigns).

(** What a tab shows: the notice that there are no campaigns yet, or one card
    for each campaign of a list. *)
Inductive TabContent : Type :=
  | NoCampaignsYet
  | Cards (shown : list Campaign).

(** The tab "browse". *)
Definition browse_tab (campaigns : list Campaign) : TabContent :=
  if decide (length campaigns = 0%nat) then NoCampaignsYet else Cards campaigns.

(** The tab "my": the test is on [myCampaigns], the cards are those of
    [campaigns]. *)
Definition my_tab (userEthAddress : option Address) (campaigns : list Campaign)
  : TabContent :=
  if decide (length (myCampaigns userEthAddress campaigns) = 0%nat) then NoCampaignsYet
  else Cards campaigns.

End Frontend.

(** * Properties *)

(** ** The messages, flattened

    Each message as one case distinction over its checks, in the order the
    code performs them. *)

Lemma create_campaign_eq env t d g dl s :
  create_campaign env t d g dl s =
  if (g =? 0) || (dl <=? block_timestamp env) then (Err InvalidParameters, s)
  else if u32_max <=? campaigns_len s then (Panic, s)
  else if u32_max <=? next_campaign_id s
       then (Panic, set_campaigns (campaigns s ++
              [{| id := next_campaign_id s; title := t; description := d; goal := g;
                  deadline := dl; owner := caller env; raised := 0;
                  completed := false |}]) s)
  else (Ok (next_campaign_id s), after_create env t d g dl s).
Proof.
  unfold create_campaign.
  destruct ((g =? 0) || (dl <=? block_timestamp env)); [reflexivity|].
  unfold bind, gets, campaigns_push, next_campaign_id_incr, emit_event, modify, ret.
  destruct (u32_max <=? campaigns_len s); [reflexivity|].
  cbn [next_campaign_id set_campaigns].
  destruct (u32_max <=? next_campaign_id s); reflexivity.
Qed.

Lemma contribute_eq env cid amount s :
  contribute env cid amount s =
  match campaigns s !! N.to_nat cid with
  | None => (Err CampaignNotFound, s)
  | Some c =>
      if completed c then (Err CampaignCompleted, s)
      else if deadline c <? block_timestamp env then (Err DeadlineReached, s)
      else
        match Token.transfer_from (account_id env) (caller env) (account_id env)
                amount (token_contract s) with
        | Err e => (Err e, s)
        | Panic => (Panic, s)
        | Ok t =>
            if raised c + amount <=? u256_max then
              if get_contribution s cid (caller env) + amount <=? u256_max
              then (Ok tt, after_contribute env cid amount c t s)
              else (Panic,
                    set_campaigns
                      (<[N.to_nat cid := set_raised (raised c + amount) c]> (campaigns s))
                      (set_token_contract t s))
            else (Err Overflow, set_token_contract t s)
        end
  end.
Proof.
  unfold contribute, bind at 1, get_campaign_mut.
  destruct (campaigns s !! N.to_nat cid) as [c|]; [|reflexivity].
  destruct (completed c); [reflexivity|].
  destruct (deadline c <? block_timestamp env); [reflexivity|].
  unfold bind at 1, call_token.
  destruct (Token.transfer_from _ _ _ _ _) as [t|e|]; try reflexivity.
  unfold bind at 1, ok_or, checked_add.
  destruct (raised c + amount <=? u256_max); [|reflexivity].
  unfold ret at 1, bind, write_campaign, modify, gets, u256_add, get_contribution.
  cbn [contributions set_campaigns set_token_contract].
  destruct (_ <=? u256_max); reflexivity.
Qed.

Lemma finalize_eq env cid s :
  finalize env cid s =
  match campaigns s !! N.to_nat cid with
  | None => (Err CampaignNotFound, s)
  | Some c =>
      if negb (bool_decide (caller env = owner c)) then (Err OnlyOwner, s)
      else if completed c then (Err CampaignCompleted, s)
      else if block_timestamp env <=? deadline c then (Err DeadlineNotReached, s)
      else
        let s1 := set_campaigns (<[N.to_nat cid := set_completed true c]> (campaigns s)) s in
        if goal c <=? raised c then
          match Token.transfer (account_id env) (owner c) (raised c) (token_contract s) with
          | Ok t => (Ok tt, after_finalize env cid c t s)
          | Err e => (Err e, s1)
          | Panic => (Panic, s1)
          end
        else (Ok tt, after_finalize env cid c (token_contract s) s)
  end.
Proof.
  unfold finalize, bind at 1, get_campaign_mut.
  destruct (campaigns s !! N.to_nat cid) as [c|]; [|reflexivity].
  destruct (negb _); [reflexivity|].
  destruct (completed c); [reflexivity|].
  destruct (block_timestamp env <=? deadline c); [reflexivity|].
  unfold bind, write_campaign, modify, call_token, emit_event, ret, after_finalize.
  cbn [token_contract set_campaigns].
  destruct (goal c <=? raised c); [|reflexivity].
  destruct (Token.transfer _ _ _ _) as [t|e|]; reflexivity.
Qed.

Lemma claim_refund_eq env cid s :
  claim_refund env cid s =
  match campaigns s !! N.to_nat cid with
  | None => (Err CampaignNotFound, s)
  | Some c =>
      if negb (completed c) then (Err CampaignNotCompleted, s)
      else if goal c <=? raised c then (Err CampaignSuccessful, s)
      else if get_contribution s cid (caller env) =? 0 then (Err NoContribution, s)
      else
        let s1 := set_contributions (<[(cid, caller env) := 0]> (contributions s)) s in
        match Token.transfer (account_id env) (caller env)
                (get_contribution s cid (caller env)) (token_contract s) with
        | Ok t => (Ok tt, after_refund env cid t s)
        | Err e => (Err e, s1)
        | Panic => (Panic, s1)
        end
  end.
Proof.
  unfold claim_refund, bind at 1, get_campaign_mut.
  destruct (campaigns s !! N.to_nat cid) as [c|]; [|reflexivity].
  destruct (negb _); [reflexivity|].
  destruct (goal c <=? raised c); [reflexivity|].
  unfold bind at 1, gets, get_contribution.
  destruct (_ =? 0); [reflexivity|].
  unfold bind, modify, call_token, emit_event, ret, after_refund, get_contribution.
  cbn [token_contract set_contributions].
  destruct (Token.transfer _ _ _ _) as [t|e|]; reflexivity.
Qed.

(** ** The token ledger *)

Lemma balance_of_set_balance who v t a :
  Token.balance_of (Token.set_balance who v t) a =
  if decide (a = who) then v else Token.balance_of t a.
Proof.
  unfold Token.balance_of, Token.set_balance; cbn [balances].
  destruct (decide (a = who)) as [->|Hne].
  - by rewrite lookup_insert_eq.
  - by rewrite lookup_insert_ne.
Qed.

Lemma transfer_Err from to amount t e :
  Token.transfer from to amount t = Err e ->
  e = InsufficientBalance /\ Token.balance_of t from < amount.
Proof.
  unfold Token.transfer.
  destruct (Token.balance_of t from <? amount) eqn:Hlt; [|discriminate].
  intros [= <-]. split; [reflexivity|]. by apply N.ltb_lt.
Qed.

Lemma transfer_not_Panic from to amount t :
  Token.transfer from to amount t <> Panic.
Proof. unfold Token.transfer. by destruct (_ <? _). Qed.

Lemma transfer_Ok from to amount t t' :
  Token.transfer from to amount t = Ok t' ->
  amount <= Token.balance_of t from /\
  allowances t' = allowances t /\
  total_supply t' = total_supply t /\
  forall a, Token.balance_of t' a =
    if decide (a = to) then
      (if decide (from = to) then Token.balance_of t a
       else Token.balance_of t a + amount)
    else if decide (a = from) then Token.balance_of t a - amount
    else Token.balance_of t a.
Proof.
  unfold Token.transfer.
  destruct (Token.balance_of t from <? amount) eqn:Hlt; [discriminate|].
  apply N.ltb_ge in Hlt. intros [= <-].
  split; [done|]. split; [done|]. split; [done|].
  intros a. rewrite !balance_of_set_balance.
  repeat case_decide; subst; try done; lia.
Qed.

Lemma transfer_enough from to amount t :
  amount <= Token.balance_of t from ->
  exists t', Token.transfer from to amount t = Ok t'.
Proof.
  intros Hle. unfold Token.transfer.
  destruct (Token.balance_of t from <? amount) eqn:Hlt; [|eauto].
  apply N.ltb_lt in Hlt. lia.
Qed.

Lemma transfer_from_Err spender from to amount t e :
  Token.transfer_from spender from to amount t = Err e ->
  e = InsufficientAllowance \/ e = InsufficientBalance.
Proof.
  unfold Token.transfer_from.
  destruct (_ <? _); [intros [= <-]; by left|].
  destruct (Token.transfer from to amount t) eqn:Ht; try discriminate.
  intros [= <-]. right. by apply transfer_Err in Ht as [-> _].
Qed.


Lemma transfer_from_Ok spender from to amount t t' :
  Token.transfer_from spender from to amount t = Ok t' ->
  amount <= Token.allowance t from spender /\
  exists t1, Token.transfer from to amount t = Ok t1 /\
    t' = Token.set_allowance from spender
           (Token.allowance t from spender - amount) t1.
Proof.
  unfold Token.transfer_from.
  destruct (Token.allowance t from spender <? amount) eqn:Hlt; [discriminate|].
  apply N.ltb_ge in Hlt.
  destruct (Token.transfer from to amount t) as [t1| |]; try discriminate.
  intros [= <-]. eauto.
Qed.

Lemma transfer_from_enough spender from to amount t :
  amount <= Token.allowance t from spender ->
  amount <= Token.balance_of t from ->
  exists t', Token.transfer_from spender from to amount t = Ok t'.
Proof.
  intros Ha Hb. unfold Token.transfer_from.
  destruct (Token.allowance t from spender <? amount) eqn:Hlt.
  { apply N.ltb_lt in Hlt. lia. }
  destruct (transfer_enough from to amount t Hb) as [t1 ->]. eauto.
Qed.

(** ** Sums over the contribution ledger *)

Section LedgerSum.

Implicit Types (m : gmap (N * Address) N) (k : N * Address).

Lemma ledger_sum_step_comm cid k1 k2 v1 v2 acc :
  ledger_step cid k1 v1 (ledger_step cid k2 v2 acc) =
  ledger_step cid k2 v2 (ledger_step cid k1 v1 acc).
Proof. unfold ledger_step. repeat case_decide; lia. Qed.

Lemma ledger_sum_empty cid : ledger_sum ∅ cid = 0.
Proof. unfold ledger_sum. by rewrite map_fold_empty. Qed.

Lemma ledger_sum_insert_fresh m k v cid :
  m !! k = None ->
  ledger_sum (<[k := v]> m) cid =
  if decide (k.1 = cid) then v + ledger_sum m cid else ledger_sum m cid.
Proof.
  intros Hk. unfold ledger_sum.
  rewrite map_fold_insert_L; [done| |done].
  intros. apply (ledger_sum_step_comm cid).
Qed.

Lemma ledger_sum_delete m k v cid :
  m !! k = Some v ->
  ledger_sum m cid =
  if decide (k.1 = cid) then v + ledger_sum (delete k m) cid
  else ledger_sum (delete k m) cid.
Proof.
  intros Hk. unfold ledger_sum.
  rewrite (map_fold_delete_L _ _ k v m); [done| |done].
  intros. apply (ledger_sum_step_comm cid).
Qed.

(** Writing an entry moves the sum of its campaign by the difference of the
    new and the old value, and leaves the other campaigns alone. *)
Lemma ledger_sum_insert m k v cid :
  ledger_sum (<[k := v]> m) cid + (if decide (k.1 = cid) then default 0 (m !! k) else 0) =
  ledger_sum m cid + (if decide (k.1 = cid) then v else 0).
Proof.
  rewrite <- (insert_delete_eq m).
  rewrite ledger_sum_insert_fresh by apply lookup_delete_eq.
  destruct (m !! k) as [old|] eqn:Hk.
  - rewrite (ledger_sum_delete m k old cid Hk). simpl.
    case_decide; lia.
  - rewrite (delete_id m k Hk). simpl. case_decide; lia.
Qed.

Lemma ledger_sum_entry_le m k v :
  m !! k = Some v -> v <= ledger_sum m k.1.
Proof.
  intros Hk. rewrite (ledger_sum_delete m k v k.1 Hk).
  rewrite decide_True by done. lia.
Qed.

Lemma ledger_sum_unused m cid :
  (forall k v, m !! k = Some v -> k.1 <> cid) -> ledger_sum m cid = 0.
Proof.
  induction m as [|k v m Hk IH] using map_ind.
  - intros _. apply ledger_sum_empty.
  - intros Hall. rewrite ledger_sum_insert_fresh by done.
    rewrite decide_False by (apply (Hall k v); by rewrite lookup_insert_eq).
    apply IH. intros k' v' Hk'. apply (Hall k' v').
    rewrite lookup_insert_ne; [done|]. intros ->. congruence.
Qed.

End LedgerSum.

(** ** What a successful message has done *)

Lemma create_campaign_Ok env t d g dl s n s' :
  create_campaign env t d g dl s = (Ok n, s') ->
  g <> 0 /\ block_timestamp env < dl /\
  campaigns_len s < u32_max /\ next_campaign_id s < u32_max /\
  n = next_campaign_id s /\ s' = after_create env t d g dl s.
Proof.
  rewrite create_campaign_eq.
  destruct ((g =? 0) || (dl <=? block_timestamp env)) eqn:Hchk; [discriminate|].
  apply orb_false_iff in Hchk as [Hg Hdl].
  apply N.eqb_neq in Hg. apply N.leb_gt in Hdl.
  destruct (u32_max <=? campaigns_len s) eqn:Hlen; [discriminate|].
  destruct (u32_max <=? next_campaign_id s) eqn:Hnext; [discriminate|].
  apply N.leb_gt in Hlen, Hnext. intros [= <- <-]. done.
Qed.

Lemma contribute_Ok env cid amount s s' :
  contribute env cid amount s = (Ok tt, s') ->
  exists c t,
    campaigns s !! N.to_nat cid = Some c /\
    completed c = false /\
    block_timestamp env <= deadline c /\
    Token.transfer_from (account_id env) (caller env) (account_id env) amount
      (token_contract s) = Ok t /\
    raised c + amount <= u256_max /\
    get_contribution s cid (caller env) + amount <= u256_max /\
    s' = after_contribute env cid amount c t s.
Proof.
  rewrite contribute_eq.
  destruct (campaigns s !! N.to_nat cid) as [c|]; [|discriminate].
  destruct (completed c) eqn:Hc; [discriminate|].
  destruct (deadline c <? block_timestamp env) eqn:Hd; [discriminate|].
  destruct (Token.transfer_from _ _ _ _ _) as [t| |] eqn:Ht; try discriminate.
  destruct (raised c + amount <=? u256_max) eqn:Hr; [|discriminate].
  destruct (get_contribution s cid (caller env) + amount <=? u256_max) eqn:He;
    [|discriminate].
  intros [= <-]. exists c, t.
  apply N.ltb_ge in Hd. apply N.leb_le in Hr, He. done.
Qed.

Lemma finalize_Ok env cid s s' :
  finalize env cid s = (Ok tt, s') ->
  exists c t,
    campaigns s !! N.to_nat cid = Some c /\
    caller env = owner c /\
    completed c = false /\
    deadline c < block_timestamp env /\
    (if goal c <=? raised c
     then Token.transfer (account_id env) (owner c) (raised c) (token_contract s) = Ok t
     else t = token_contract s) /\
    s' = after_finalize env cid c t s.
Proof.
  rewrite finalize_eq.
  destruct (campaigns s !! N.to_nat cid) as [c|]; [|discriminate].
  destruct (bool_decide (caller env = owner c)) eqn:Ho; [|discriminate].
  apply bool_decide_eq_true in Ho. cbn [negb].
  destruct (completed c) eqn:Hc; [discriminate|].
  destruct (block_timestamp env <=? deadline c) eqn:Hd; [discriminate|].
  apply N.leb_gt in Hd. cbv zeta.
  destruct (goal c <=? raised c) eqn:Hg.
  - destruct (Token.transfer _ _ _ _) as [t| |] eqn:Ht; try discriminate.
    intros [= <-]. exists c, t. rewrite Hg. done.
  - intros [= <-]. exists c, (token_contract s). rewrite Hg. done.
Qed.

Lemma claim_refund_Ok env cid s s' :
  claim_refund env cid s = (Ok tt, s') ->
  exists c t,
    campaigns s !! N.to_nat cid = Some c /\
    completed c = true /\
    raised c < goal c /\
    get_contribution s cid (caller env) <> 0 /\
    Token.transfer (account_id env) (caller env)
      (get_contribution s cid (caller env)) (token_contract s) = Ok t /\
    s' = after_refund env cid t s.
Proof.
  rewrite claim_refund_eq.
  destruct (campaigns s !! N.to_nat cid) as [c|]; [|discriminate].
  destruct (completed c) eqn:Hc; [|discriminate]. cbn [negb].
  destruct (goal c <=? raised c) eqn:Hg; [discriminate|].
  apply N.leb_gt in Hg.
  destruct (_ =? 0) eqn:Hz; [discriminate|].
  apply N.eqb_neq in Hz. cbv zeta.
  destruct (Token.transfer _ _ _ _) as [t| |] eqn:Ht; try discriminate.
  intros [= <-]. exists c, t. done.
Qed.

Lemma call_token_Ok f s s' :
  call_token f s = (Ok tt, s') ->
  exists t, f (token_contract s) = Ok t /\ s' = set_token_contract t s.
Proof.
  unfold call_token. destruct (f (token_contract s)) as [t| |]; try discriminate.
  intros [= <-]. eauto.
Qed.

Lemma run_Ok env op s s' :
  run env op s = (Ok tt, s') -> step env s op s'.
Proof.
  op_cases op; intros Hrun.
  - unfold bind in Hrun.
    destruct (create_campaign env t d g dl s) as [[n| |] s1] eqn:Hc; try discriminate.
    injection Hrun as <-.
    apply create_campaign_Ok in Hc as (?&?&?&?&_&->). by constructor.
  - apply contribute_Ok in Hrun as (c&t&?&?&?&?&?&?&->). by econstructor.
  - apply finalize_Ok in Hrun as (c&t&?&?&?&?&?&->). by econstructor.
  - apply claim_refund_Ok in Hrun as (c&t&?&?&?&?&?&->). by econstructor.
  - apply call_token_Ok in Hrun as (t&?&->). by eapply step_token.
  - apply call_token_Ok in Hrun as (t&?&->). by eapply step_token.
  - apply call_token_Ok in Hrun as (t&?&->). by eapply step_token.
  - apply call_token_Ok in Hrun as (t&?&->). by eapply step_token.
Qed.

(** A property kept by every successful transaction among those allowed by
    [Q] holds along every run made of such transactions. *)
Lemma exec_preserves_on (Q : Call -> Prop) (P : InkFundMe -> Prop) self :
  (forall c s s', Q c -> P s -> step (env_of self c) s (call_op c) s' -> P s') ->
  forall tr s s', Forall Q tr -> exec self tr s = Some s' -> P s -> P s'.
Proof.
  intros Hstep tr. induction tr as [|c tr IH]; intros s s' HQ Hexec HP.
  - by injection Hexec as <-.
  - cbn [exec] in Hexec. apply Forall_cons in HQ as [Hc HQ].
    destruct (run (env_of self c) (call_op c) s) as [[[]| |] s1] eqn:Hrun; try discriminate.
    apply (IH s1 s' HQ Hexec). eapply Hstep; [done..|]. by apply run_Ok.
Qed.

Lemma exec_preserves (P : InkFundMe -> Prop) self :
  (forall c s s', P s -> step (env_of self c) s (call_op c) s' -> P s') ->
  forall tr s s', exec self tr s = Some s' -> P s -> P s'.
Proof.
  intros Hstep tr s s'.
  apply (exec_preserves_on (fun _ => True)); [by eauto|].
  by apply Forall_true.
Qed.

(** ** The invariant of the store *)

Lemma store_inv_new t : store_inv (new t).
Proof.
  split; cbn; done.
Qed.

Lemma lookup_campaign_lt s cid c :
  campaigns s !! N.to_nat cid = Some c -> cid < campaigns_len s.
Proof. intros H%lookup_lt_Some. unfold campaigns_len. lia. Qed.

(** The sum of campaign [j] after an entry of campaign [cid] went from [old]
    to [v]. *)
Lemma ledger_sum_write (m : gmap (N * Address) N) cid who v j :
  ledger_sum (<[(cid, who) := v]> m) j + (if decide (cid = j) then default 0 (m !! (cid, who)) else 0)
  = ledger_sum m j + (if decide (cid = j) then v else 0).
Proof. apply (ledger_sum_insert m (cid, who) v j). Qed.

Lemma store_inv_step env s op s' :
  store_inv s -> step env s op s' -> store_inv s'.
Proof.
  intros [Hnext Hlen Hids Hkeys Hsum] Hstep.
  destruct Hstep as [t d g dl Hg Hdl Hcap Hcap'|cid amount c t Hc Hcompl Hd Ht Hr He
                    |cid c t Hc Ho Hcompl Hd Ht|cid c t Hc Hcompl Hr Hne Ht|op f t Hop Hf].
  - (* create_campaign *)
    split; unfold campaigns_len in *; cbn [after_create campaigns contributions next_campaign_id].
    + rewrite length_app. cbn. lia.
    + rewrite length_app. cbn. lia.
    + intros i c [[Hi Hc]|[-> <-]]%lookup_snoc_Some; [by apply Hids|]. cbn. lia.
    + intros k v Hk. apply Hkeys in Hk. rewrite length_app. cbn. lia.
    + intros i c [[Hi Hc]|[-> <-]]%lookup_snoc_Some; [by apply Hsum|]. cbn [raised].
      rewrite ledger_sum_unused; [done|].
      intros k v Hk%Hkeys. lia.
  - (* contribute *)
    pose proof (lookup_campaign_lt _ _ _ Hc) as Hlt.
    split; unfold campaigns_len in *;
      cbn [after_contribute campaigns contributions next_campaign_id];
      rewrite ?length_insert; try done.
    + intros i c' [(<- & <- & _)|[Hne Hi]]%list_lookup_insert_Some; [|by apply Hids].
      cbn. by apply Hids.
    + intros k v [[<- _]|[_ Hk]]%lookup_insert_Some; [done|by eapply Hkeys].
    + intros i c' Hi.
      pose proof (ledger_sum_write (contributions s) cid (caller env)
                    (get_contribution s cid (caller env) + amount) (N.of_nat i)) as Hw.
      fold (get_contribution s cid (caller env)) in Hw.
      apply list_lookup_insert_Some in Hi as [(<- & <- & _)|[Hne Hi]].
      * rewrite !decide_True in Hw by lia. cbn [raised completed set_raised].
        destruct (Hsum _ _ Hc) as [Hle Heq]. specialize (Heq Hcompl). lia.
      * rewrite !decide_False in Hw by lia.
        destruct (Hsum _ _ Hi) as [Hle Heq]. split; [lia|]. intros Hf. specialize (Heq Hf). lia.
  - (* finalize *)
    split; unfold campaigns_len in *;
      cbn [after_finalize campaigns contributions next_campaign_id];
      rewrite ?length_insert; try done.
    + intros i c' [(<- & <- & _)|[Hne Hi]]%list_lookup_insert_Some; [|by apply Hids].
      cbn. by apply Hids.
    + intros i c' [(<- & <- & _)|[Hne Hi]]%list_lookup_insert_Some; [|by apply Hsum].
      cbn [raised completed set_completed]. split; [|done]. by apply Hsum.
  - (* claim_refund *)
    split; unfold campaigns_len in *;
      cbn [after_refund campaigns contributions next_campaign_id]; try done.
    + intros k v [[<- _]|[_ Hk]]%lookup_insert_Some; [|by eapply Hkeys].
      apply lookup_campaign_lt in Hc. done.
    + intros i c' Hi.
      pose proof (ledger_sum_write (contributions s) cid (caller env) 0 (N.of_nat i)) as Hw.
      fold (get_contribution s cid (caller env)) in Hw.
      destruct (Hsum _ _ Hi) as [Hle Heq].
      destruct (decide (cid = N.of_nat i)) as [->|Hne'].
      * rewrite Nat2N.id in Hc. assert (c' = c) as -> by congruence.
        split; [lia|]. congruence.
      * split; [lia|]. intros Hf. specialize (Heq Hf). lia.
  - (* a call of the token contract *)
    split; done.
Qed.

Lemma store_inv_exec self t tr s :
  exec self tr (new t) = Some s -> store_inv s.
Proof.
  intros Hexec.
  apply (exec_preserves store_inv self) with (tr := tr) (s := new t); [|done|].
  - intros c s1 s2 Hs1 Hstep. by eapply store_inv_step.
  - apply store_inv_new.
Qed.

(** The sum of a campaign is untouched by a write to another campaign. *)
Lemma ledger_sum_write_other (m : gmap (N * Address) N) cid who v j :
  cid <> j -> ledger_sum (<[(cid, who) := v]> m) j = ledger_sum m j.
Proof.
  intros Hne. pose proof (ledger_sum_write m cid who v j) as Hw.
  rewrite !decide_False in Hw by done. lia.
Qed.

Lemma sum_matches_step cid env s op s' :
  op <> ClaimRefund cid ->
  sum_matches cid s -> step env s op s' -> sum_matches cid s'.
Proof.
  intros Hop [Hinv Hm] Hstep.
  pose proof (store_inv_step _ _ _ _ Hinv Hstep) as Hinv'.
  split; [done|]. intros c' Hc'.
  destruct (completed c') eqn:Hcompl'.
  2:{ destruct (inv_sum _ Hinv' _ _ Hc') as [_ Heq].
      rewrite N2Nat.id in Heq. by apply Heq. }
  destruct Hstep as [t d g dl Hg Hdl Hcap Hcap'|cid' amount c t Hc Hcompl Hd Ht Hr He
                    |cid' c t Hc Ho Hcompl Hd Ht|cid' c t Hc Hcompl Hr Hne Ht|op f t Hf Ht].
  - cbn [after_create campaigns contributions] in *.
    apply lookup_snoc_Some in Hc' as [[_ Hc']|[_ <-]]; [by apply Hm|done].
  - cbn [after_contribute campaigns contributions] in *.
    apply list_lookup_insert_Some in Hc' as [(_ & <- & _)|[Hne Hc']].
    + cbn in Hcompl'. congruence.
    + rewrite ledger_sum_write_other by (intros ->; done). by apply Hm.
  - cbn [after_finalize campaigns contributions] in *.
    apply list_lookup_insert_Some in Hc' as [(Heq & <- & _)|[Hne Hc']]; [|by apply Hm].
    cbn [raised set_completed]. apply Hm. by rewrite <- Heq.
  - cbn [after_refund campaigns contributions] in *.
    rewrite ledger_sum_write_other by congruence. by apply Hm.
  - by apply Hm.
Qed.

Lemma sum_matches_exec self t tr s cid :
  Forall (fun call => call_op call <> ClaimRefund cid) tr ->
  exec self tr (new t) = Some s -> sum_matches cid s.
Proof.
  intros Hno Hexec.
  apply (exec_preserves_on (fun call => call_op call <> ClaimRefund cid)
           (sum_matches cid) self) with (tr := tr) (s := new t); [|done..|].
  - intros c s1 s2 Hc Hs1 Hstep. by eapply sum_matches_step.
  - split; [apply store_inv_new|done].
Qed.

(** ** What any call may do to a stored campaign

    Whatever the outcome of a call, a campaign stays where it is stored and
    is changed at most by a new [raised] or by [completed] going to [true];
    the latter only by [finalize], called by the owner after the deadline of
    a campaign that was not completed. *)
Lemma run_campaign_cases env op s i c :
  campaigns s !! i = Some c ->
  exists c', campaigns (run env op s).2 !! i = Some c' /\
    (c' = c \/
     (exists r, c' = set_raised r c) \/
     (c' = set_completed true c /\ op = Finalize (N.of_nat i) /\
      caller env = owner c /\ completed c = false /\
      deadline c < block_timestamp env)).
Proof.
  intros Hc.
  assert (forall t, campaigns (set_token_contract t s) = campaigns s) as Htok by done.
  assert (forall f, exists c', campaigns (call_token f s).2 !! i = Some c' /\ c' = c) as Hcall.
  { intros f. unfold call_token. destruct (f (token_contract s)); eauto. }
  op_cases op.
  - (* create_campaign *)
    unfold bind. rewrite create_campaign_eq.
    assert (forall x, (campaigns s ++ [x]) !! i = Some c) as Happ.
    { intros x. rewrite lookup_app_l; [done|]. by eapply lookup_lt_Some. }
    destruct (_ || _); [eauto|].
    destruct (u32_max <=? campaigns_len s); [eauto|].
    destruct (u32_max <=? next_campaign_id s); cbn; eauto.
  - (* contribute *)
    rewrite contribute_eq.
    destruct (campaigns s !! N.to_nat cid) as [c0|] eqn:Hc0; [|eauto].
    destruct (completed c0); [eauto|].
    destruct (deadline c0 <? block_timestamp env); [eauto|].
    destruct (Token.transfer_from _ _ _ _ _) as [t|e|]; [|eauto..].
    assert (exists c', <[N.to_nat cid := set_raised (raised c0 + a) c0]> (campaigns s) !! i
                       = Some c' /\ (c' = c \/ exists r, c' = set_raised r c)) as (c'&Hc'&Hcase).
    { destruct (decide (N.to_nat cid = i)) as [<-|Hne].
      - rewrite list_lookup_insert_eq by (by eapply lookup_lt_Some).
        assert (c0 = c) as -> by congruence. eauto.
      - rewrite list_lookup_insert_ne by done. eauto. }
    destruct (raised c0 + a <=? u256_max); [|eauto].
    destruct (_ <=? u256_max); cbn; exists c'; (split; [done|]); destruct Hcase; eauto.
  - (* finalize *)
    rewrite finalize_eq.
    destruct (campaigns s !! N.to_nat cid) as [c0|] eqn:Hc0; [|eauto].
    destruct (bool_decide (caller env = owner c0)) eqn:Ho; [|eauto].
    apply bool_decide_eq_true in Ho. cbn [negb].
    destruct (completed c0) eqn:Hcompl; [eauto|].
    destruct (block_timestamp env <=? deadline c0) eqn:Hd; [eauto|].
    apply N.leb_gt in Hd. cbv zeta.
    assert (exists c', <[N.to_nat cid := set_completed true c0]> (campaigns s) !! i = Some c' /\
              (c' = c \/
               (c' = set_completed true c /\ Finalize cid = Finalize (N.of_nat i) /\
                caller env = owner c /\ completed c = false /\
                deadline c < block_timestamp env))) as (c'&Hc'&Hcase).
    { destruct (decide (N.to_nat cid = i)) as [<-|Hne].
      - rewrite list_lookup_insert_eq by (by eapply lookup_lt_Some).
        assert (c0 = c) as -> by congruence. rewrite N2Nat.id.
        eexists. split; [done|]. right. done.
      - rewrite list_lookup_insert_ne by done. eauto. }
    destruct (goal c0 <=? raised c0);
      [destruct (Token.transfer _ _ _ _)|]; cbn; exists c'; (split; [done|]);
      destruct Hcase; eauto.
  - (* claim_refund *)
    rewrite claim_refund_eq.
    destruct (campaigns s !! N.to_nat cid) as [c0|] eqn:Hc0; [|eauto].
    destruct (negb (completed c0)); [eauto|].
    destruct (goal c0 <=? raised c0); [eauto|].
    destruct (_ =? 0); [eauto|]. cbv zeta.
    destruct (Token.transfer _ _ _ _); cbn; eauto.
  - destruct (Hcall (Token.mint to a)) as (c'&?&->); eauto.
  - destruct (Hcall (Token.approve (caller env) sp a)) as (c'&?&->); eauto.
  - destruct (Hcall (Token.transfer (caller env) to a)) as (c'&?&->); eauto.
  - destruct (Hcall (Token.transfer_from (caller env) from to a)) as (c'&?&->); eauto.
Qed.

Lemma run_keeps_completed env op s i c :
  campaigns s !! i = Some c -> completed c = true ->
  exists c', campaigns (run env op s).2 !! i = Some c' /\ completed c' = true.
Proof.
  intros Hc Hcompl.
  destruct (run_campaign_cases env op s i c Hc) as (c'&Hc'&[->|[[r ->]|[-> _]]]); eauto.
Qed.

Lemma exec_keeps_completed self tr s s' i c :
  exec self tr s = Some s' ->
  campaigns s !! i = Some c -> completed c = true ->
  exists c', campaigns s' !! i = Some c' /\ completed c' = true.
Proof.
  revert s c. induction tr as [|call tr IH]; intros s c Hexec Hc Hcompl.
  - injection Hexec as <-. eauto.
  - cbn [exec] in Hexec.
    destruct (run_keeps_completed (env_of self call) (call_op call) s i c Hc Hcompl)
      as (c1&Hc1&Hcompl1).
    destruct (run (env_of self call) (call_op call) s) as [[[]| |] s1]; try discriminate.
    by apply (IH s1 c1).
Qed.

(** ** A spent refund stays spent *)

Lemma refund_spent_NoContribution cid env s :
  refund_spent cid (caller env) s ->
  claim_refund env cid s = (Err NoContribution, s).
Proof.
  intros (c&Hc&Hcompl&Hr&Hz). rewrite claim_refund_eq, Hc, Hcompl. cbn [negb].
  apply N.leb_gt in Hr. rewrite Hr, Hz. done.
Qed.

Lemma refund_spent_step cid who env s op s' :
  refund_spent cid who s -> step env s op s' -> refund_spent cid who s'.
Proof.
  intros (c&Hc&Hcompl&Hr&Hz) Hstep. unfold refund_spent, get_contribution in *.
  destruct Hstep as [t d g dl Hg Hdl Hcap Hcap'|cid' amount c0 t Hc0 Hcompl0 Hd Ht Hr0 He
                    |cid' c0 t Hc0 Ho Hcompl0 Hd Ht|cid' c0 t Hc0 Hcompl0 Hr0 Hne Ht
                    |op f t Hf Ht].
  - exists c. cbn [after_create campaigns contributions].
    rewrite lookup_app_l by (by eapply lookup_lt_Some). done.
  - exists c. cbn [after_contribute campaigns contributions].
    assert (cid' <> cid) as Hne by (intros ->; congruence).
    rewrite list_lookup_insert_ne by lia.
    rewrite lookup_insert_ne by congruence. done.
  - exists c. cbn [after_finalize campaigns contributions].
    assert (cid' <> cid) as Hne by (intros ->; congruence).
    rewrite list_lookup_insert_ne by lia. done.
  - exists c. cbn [after_refund campaigns contributions].
    split; [done|]. split; [done|]. split; [done|].
    destruct (decide ((cid', caller env) = (cid, who))) as [->|Hne'].
    + by rewrite lookup_insert_eq.
    + by rewrite lookup_insert_ne.
  - exists c. done.
Qed.

(** ** Sums of balances *)

Lemma map_sum_insert_fresh (m : gmap Address N) k v :
  m !! k = None -> map_sum (<[k := v]> m) = v + map_sum m.
Proof.
  intros Hk. unfold map_sum. rewrite map_fold_insert_L; [done| |done].
  intros. lia.
Qed.

Lemma map_sum_delete (m : gmap Address N) k v :
  m !! k = Some v -> map_sum m = v + map_sum (delete k m).
Proof.
  intros Hk. unfold map_sum. rewrite (map_fold_delete_L _ _ k v m); [done| |done].
  intros. lia.
Qed.

Lemma map_sum_insert (m : gmap Address N) k v :
  map_sum (<[k := v]> m) + default 0 (m !! k) = map_sum m + v.
Proof.
  rewrite <- (insert_delete_eq m).
  rewrite map_sum_insert_fresh by apply lookup_delete_eq.
  destruct (m !! k) as [old|] eqn:Hk; simpl.
  - rewrite (map_sum_delete m k old Hk). lia.
  - rewrite (delete_id m k Hk). lia.
Qed.



Lemma sum_balances_set_balance who v t :
  sum_balances (Token.set_balance who v t) + Token.balance_of t who = sum_balances t + v.
Proof. apply map_sum_insert. Qed.


Lemma transfer_sum_balances from to amount t t' :
  Token.transfer from to amount t = Ok t' -> sum_balances t' = sum_balances t.
Proof.
  unfold Token.transfer.
  destruct (Token.balance_of t from <? amount) eqn:Hlt; [discriminate|].
  apply N.ltb_ge in Hlt. intros [= <-].
  pose proof (sum_balances_set_balance from (Token.balance_of t from - amount) t) as H1.
  pose proof (sum_balances_set_balance to
    (Token.balance_of (Token.set_balance from (Token.balance_of t from - amount) t) to + amount)
    (Token.set_balance from (Token.balance_of t from - amount) t)) as H2.
  lia.
Qed.

(** ** What the escrow account owes *)

Lemma total_due_from_snoc m i l c :
  total_due_from m i (l ++ [c]) = total_due_from m i l + due m (i + length l) c.
Proof.
  revert i. induction l as [|x l IH]; intros i; cbn [total_due_from app length].
  - rewrite Nat.add_0_r. lia.
  - rewrite IH. replace (S i + length l)%nat with (i + S (length l))%nat by lia. lia.
Qed.

Lemma due_le_total_due_from m i l j c :
  l !! j = Some c -> due m (i + j) c <= total_due_from m i l.
Proof.
  revert i j. induction l as [|x l IH]; intros i j Hj; [done|].
  destruct j as [|j]; cbn [total_due_from].
  - injection Hj as ->. rewrite Nat.add_0_r. lia.
  - cbn in Hj. specialize (IH (S i) j Hj).
    replace (i + S j)%nat with (S i + j)%nat by lia. lia.
Qed.

Lemma total_due_from_ext m m' i l :
  (forall k x, l !! k = Some x -> due m' (i + k) x = due m (i + k) x) ->
  total_due_from m' i l = total_due_from m i l.
Proof.
  revert i. induction l as [|y l IH]; intros i Hall; [done|].
  cbn [total_due_from]. rewrite IH.
  - specialize (Hall 0%nat y eq_refl). rewrite Nat.add_0_r in Hall. by rewrite Hall.
  - intros k z Hk. replace (S i + k)%nat with (i + S k)%nat by lia. by apply Hall.
Qed.

(** The total after the campaign at index [j] went from [c] to [c'] and the
    ledger from [m] to [m'], when no other campaign is owed more or less. *)
Lemma total_due_from_change m m' i l j c c' :
  l !! j = Some c ->
  (forall k x, k <> j -> l !! k = Some x -> due m' (i + k) x = due m (i + k) x) ->
  total_due_from m' i (<[j := c']> l) + due m (i + j) c =
  total_due_from m i l + due m' (i + j) c'.
Proof.
  revert i j. induction l as [|x l IH]; intros i j Hj Hother; [done|].
  destruct j as [|j].
  - injection Hj as ->.
    change (<[0%nat := c']> (c :: l)) with (c' :: l).
    cbn [total_due_from]. rewrite Nat.add_0_r.
    rewrite (total_due_from_ext m m' (S i) l); [lia|].
    intros k x Hk. replace (S i + k)%nat with (i + S k)%nat by lia.
    by apply Hother.
  - cbn in Hj.
    change (<[S j := c']> (x :: l)) with (x :: <[j := c']> l).
    cbn [total_due_from].
    assert (due m' i x = due m i x) as ->.
    { specialize (Hother 0%nat x). rewrite Nat.add_0_r in Hother. by apply Hother. }
    specialize (IH (S i) j Hj).
    replace (i + S j)%nat with (S i + j)%nat by lia.
    assert (total_due_from m' (S i) (<[j:=c']> l) + due m (S i + j) c =
            total_due_from m (S i) l + due m' (S i + j) c') as Heq; [|lia].
    apply IH. intros k z Hne Hk. replace (S i + k)%nat with (i + S k)%nat by lia.
    apply Hother; [lia|done].
Qed.

(** ** The ledger under the calls of a run *)

Lemma allowance_set_allowance h sp v t h' sp' :
  Token.allowance (Token.set_allowance h sp v t) h' sp' =
  if decide ((h', sp') = (h, sp)) then v else Token.allowance t h' sp'.
Proof.
  unfold Token.allowance, Token.set_allowance; cbn [allowances].
  destruct (decide ((h', sp') = (h, sp))) as [->|Hne].
  - by rewrite lookup_insert_eq.
  - by rewrite lookup_insert_ne.
Qed.

Lemma transfer_preserves from to amount t t' self :
  Token.transfer from to amount t = Ok t' ->
  (supply_ok t -> supply_ok t') /\
  (no_allowance self t -> no_allowance self t') /\
  (from <> self -> Token.balance_of t self <= Token.balance_of t' self).
Proof.
  intros Ht. pose proof (transfer_sum_balances _ _ _ _ _ Ht) as Hsum.
  apply transfer_Ok in Ht as (Hle & Hall & Hsup & Hbal).
  split; [|split].
  - unfold supply_ok. by rewrite Hsum, Hsup.
  - unfold no_allowance, Token.allowance. by rewrite Hall.
  - intros Hne. rewrite Hbal. repeat case_decide; subst; try done; lia.
Qed.

Lemma transfer_out_of self to amount t t' :
  Token.transfer self to amount t = Ok t' ->
  amount <= Token.balance_of t self /\
  Token.balance_of t self - amount <= Token.balance_of t' self.
Proof.
  intros (Hle & _ & _ & Hbal)%transfer_Ok. split; [done|].
  rewrite Hbal. repeat case_decide; subst; try done; lia.
Qed.

Lemma transfer_from_preserves spender from to amount t t' self :
  Token.transfer_from spender from to amount t = Ok t' ->
  no_allowance self t ->
  (supply_ok t -> supply_ok t') /\
  no_allowance self t' /\
  Token.balance_of t self <= Token.balance_of t' self.
Proof.
  intros (Hallow & t1 & Ht1 & ->)%transfer_from_Ok Hno.
  pose proof (transfer_preserves _ _ _ _ _ self Ht1) as (Hsup & Hno1 & Hbal).
  split; [|split].
  - done.
  - intros sp. rewrite allowance_set_allowance.
    case_decide as Heq; [|by apply Hno1].
    injection Heq as -> ->. rewrite (Hno spender). lia.
  - change (Token.balance_of (Token.set_allowance from spender
              (Token.allowance t from spender - amount) t1) self)
      with (Token.balance_of t1 self).
    destruct (decide (from = self)) as [->|Hne]; [|by apply Hbal].
    rewrite (Hno spender) in Hallow. assert (amount = 0) as -> by lia.
    apply transfer_Ok in Ht1 as (_ & _ & _ & Hb). rewrite Hb.
    repeat case_decide; subst; lia.
Qed.

Lemma transfer_from_into self who amount t t' :
  who <> self ->
  Token.transfer_from self who self amount t = Ok t' ->
  amount <= Token.balance_of t who /\
  Token.balance_of t' self = Token.balance_of t self + amount.
Proof.
  intros Hne (_ & t1 & Ht1 & ->)%transfer_from_Ok.
  apply transfer_Ok in Ht1 as (Hle & _ & _ & Hb). split; [done|].
  change (Token.balance_of (Token.set_allowance who self
            (Token.allowance t who self - amount) t1) self)
    with (Token.balance_of t1 self).
  rewrite Hb. rewrite decide_True by done. by rewrite decide_False by done.
Qed.

Lemma mint_preserves to amount t t' self :
  Token.mint to amount t = Ok t' ->
  (supply_ok t -> supply_ok t') /\
  (no_allowance self t -> no_allowance self t') /\
  Token.balance_of t self <= Token.balance_of t' self.
Proof.
  unfold Token.mint.
  destruct (_ || _) eqn:Hchk; [discriminate|].
  apply orb_false_iff in Hchk as [Hb%N.ltb_ge Hs%N.ltb_ge]. intros [= <-].
  split; [|split].
  - intros [Hsum Hsup]. unfold supply_ok, sum_balances. cbn [balances total_supply].
    pose proof (map_sum_insert (balances t) to (Token.balance_of t to + amount)) as Hi.
    fold (Token.balance_of t to) in Hi. unfold sum_balances in Hsum. lia.
  - done.
  - unfold Token.balance_of at 2. cbn [balances].
    destruct (decide (self = to)) as [->|Hne].
    + rewrite lookup_insert_eq. simpl. lia.
    + rewrite lookup_insert_ne by done. done.
Qed.

(** A call of the token contract by anyone but the escrow account keeps the
    ledger in order and takes nothing from the escrow account. *)
Lemma token_op_preserves self env op f t t' :
  caller env <> self ->
  token_op env op = Some f ->
  f t = Ok t' ->
  ledger_ok self t ->
  ledger_ok self t' /\ Token.balance_of t self <= Token.balance_of t' self.
Proof.
  intros Hcaller Hop Hf [Hsup Hno].
  destruct op as [| | | |to a|sp a|to a|from to a]; try discriminate;
    injection Hop as <-; unfold ledger_ok.
  - pose proof (mint_preserves _ _ _ _ self Hf) as (?&?&?). auto.
  - injection Hf as <-. split; [split; [done|]|done].
    intros sp'. rewrite allowance_set_allowance.
    case_decide as Heq; [|apply Hno]. by injection Heq as -> _.
  - pose proof (transfer_preserves _ _ _ _ _ self Hf) as (?&?&?). auto.
  - pose proof (transfer_from_preserves _ _ _ _ _ _ self Hf Hno) as (?&?&?).
    auto.
Qed.

(** ** Solvency: the escrow account holds what it owes *)

Lemma sound_new self t : ledger_ok self t -> sound self (new t).
Proof.
  intros Hok. split; [apply store_inv_new|done|].
  unfold total_due. cbn. lia.
Qed.

Lemma due_write_other m cid who v k x :
  cid <> N.of_nat k -> due (<[(cid, who) := v]> m) k x = due m k x.
Proof. intros Hne. unfold due. by rewrite ledger_sum_write_other. Qed.

Lemma sound_step self env s op s' :
  account_id env = self ->
  caller env <> self ->
  sound self s -> step env s op s' -> sound self s'.
Proof.
  intros Hself Hcaller [Hinv Hok Hsolv] Hstep.
  pose proof (store_inv_step _ _ _ _ Hinv Hstep) as Hinv'.
  split; [done|..];
  destruct Hstep as [t d g dl Hg Hdl Hcap Hcap'|cid amount c t Hc Hcompl Hd Ht Hr He
                    |cid c t Hc Ho Hcompl Hd Ht|cid c t Hc Hcompl Hr Hne Ht|op f t Hop Hf];
  rewrite ?Hself in *.
  - done.
  - cbn [after_contribute token_contract]. destruct Hok as [Hsup Hno].
    pose proof (transfer_from_preserves _ _ _ _ _ _ self Ht Hno) as (?&?&_).
    split; auto.
  - cbn [after_finalize token_contract]. destruct (goal c <=? raised c); [|by subst].
    pose proof (transfer_preserves _ _ _ _ _ self Ht) as (?&?&_).
    destruct Hok. split; auto.
  - cbn [after_refund token_contract].
    pose proof (transfer_preserves _ _ _ _ _ self Ht) as (?&?&_).
    destruct Hok. split; auto.
  - cbn [set_token_contract token_contract].
    by destruct (token_op_preserves self env op f _ _ Hcaller Hop Hf Hok).
  - (* create_campaign *)
    unfold total_due in *. cbn [after_create campaigns contributions token_contract].
    rewrite total_due_from_snoc. unfold due. cbn [completed raised]. lia.
  - (* contribute *)
    unfold total_due in *. cbn [after_contribute campaigns contributions token_contract].
    assert (forall k x, k <> N.to_nat cid -> campaigns s !! k = Some x ->
              due (<[(cid, caller env) := get_contribution s cid (caller env) + amount]>
                     (contributions s)) (0 + k) x = due (contributions s) (0 + k) x)
      as Hother.
    { intros k x Hk _. apply due_write_other. lia. }
    pose proof (total_due_from_change (contributions s) _
      0 (campaigns s) (N.to_nat cid) c (set_raised (raised c + amount) c) Hc Hother) as Hch.
    unfold due in Hch. cbn [completed raised set_raised] in Hch. rewrite Hcompl in Hch.
    apply (transfer_from_into self _ _ _ _ Hcaller) in Ht as [_ ->]. lia.
  - (* finalize *)
    unfold total_due in *. cbn [after_finalize campaigns contributions token_contract].
    pose proof (total_due_from_change (contributions s) (contributions s)
      0 (campaigns s) (N.to_nat cid) c (set_completed true c) Hc
      (fun _ _ _ _ => eq_refl)) as Hch.
    unfold due in Hch. cbn [Nat.add completed raised goal set_completed] in Hch.
    rewrite Hcompl in Hch.
    destruct (inv_sum _ Hinv _ _ Hc) as [_ Heq]. specialize (Heq Hcompl).
    destruct (goal c <=? raised c).
    + apply transfer_out_of in Ht as [Hle Hbal]. lia.
    + subst t. lia.
  - (* claim_refund *)
    unfold total_due in *. cbn [after_refund campaigns contributions token_contract].
    assert (forall k x, k <> N.to_nat cid -> campaigns s !! k = Some x ->
              due (<[(cid, caller env) := 0]> (contributions s)) (0 + k) x
              = due (contributions s) (0 + k) x) as Hother.
    { intros k x Hk _. apply due_write_other. lia. }
    pose proof (total_due_from_change (contributions s) _
      0 (campaigns s) (N.to_nat cid) c c Hc Hother) as Hch.
    rewrite (list_insert_id _ _ _ Hc) in Hch.
    unfold due in Hch. cbn [Nat.add] in Hch. rewrite Hcompl in Hch.
    apply N.leb_gt in Hr. rewrite Hr in Hch. rewrite N2Nat.id in Hch.
    pose proof (ledger_sum_write (contributions s) cid (caller env) 0 cid) as Hw.
    rewrite !decide_True in Hw by done.
    fold (get_contribution s cid (caller env)) in Hw.
    apply transfer_out_of in Ht as [Hle Hbal]. lia.
  - (* a call of the token contract *)
    unfold total_due in *. cbn [set_token_contract campaigns contributions token_contract].
    destruct (token_op_preserves self env op f _ _ Hcaller Hop Hf Hok) as [_ Hle]. lia.
Qed.

Lemma sound_exec self t tr s :
  ledger_ok self t ->
  Forall (fun call => call_caller call <> self) tr ->
  exec self tr (new t) = Some s -> sound self s.
Proof.
  intros Hok Hcallers Hexec.
  apply (exec_preserves_on (fun call => call_caller call <> self) (sound self) self)
    with (tr := tr) (s := new t); [|done..|by apply sound_new].
  intros c s1 s2 Hc Hs1 Hstep. by eapply (sound_step self (env_of self c)).
Qed.

(** ** Calls that do not succeed *)

Lemma call_token_not_Ok f s : (call_token f s).1 <> Ok tt -> (call_token f s).2 = s.
Proof. unfold call_token. by destruct (f (token_contract s)). Qed.


Lemma get_contribution_le_sum s cid who :
  get_contribution s cid who <= ledger_sum (contributions s) cid.
Proof.
  unfold get_contribution.
  destruct (contributions s !! (cid, who)) as [v|] eqn:Hv; simpl; [|lia].
  apply (ledger_sum_entry_le _ _ _ Hv).
Qed.



Lemma start_ledger_ok : ledger_ok Scenario.engine Scenario.start.
Proof.
  split; [split|].
  - vm_compute. discriminate.
  - vm_compute. discriminate.
  - intros sp. unfold Token.allowance, Scenario.start. cbn [allowances].
    by rewrite lookup_singleton_ne.
Defined.

(** ** Filling the store *)

Lemma exec_app self tr1 tr2 s :
  exec self (tr1 ++ tr2) s =
  match exec self tr1 s with
  | Some s1 => exec self tr2 s1
  | None => None
  end.
Proof.
  revert s. induction tr1 as [|c tr1 IH]; intros s; [done|].
  cbn [app exec].
  destruct (run (env_of self c) (call_op c) s) as [[[]| |] s1]; [apply IH|done..].
Qed.

(** Every number of campaigns that fits the vector is reached by creating
    them one after the other. *)
Lemma reach_any_length self t n :
  N.of_nat n <= u32_max ->
  exists tr s, exec self tr (new t) = Some s /\ length (campaigns s) = n.
Proof.
  induction n as [|n IH]; intros Hn.
  - exists [], (new t). done.
  - destruct IH as (tr & s & Hexec & Hlen); [lia|].
    pose proof (store_inv_exec _ _ _ _ Hexec) as Hinv.
    pose (c := {| call_caller := 0; call_time := 0;
                  call_op := CreateCampaign "" "" 1 1 |}).
    exists (tr ++ [c]), (after_create (env_of self c) "" "" 1 1 s).
    rewrite exec_app, Hexec. cbn [exec c call_op run]. unfold bind.
    rewrite create_campaign_eq. cbn [block_timestamp env_of call_time].
    assert (campaigns_len s < u32_max) as Hroom by (unfold campaigns_len; lia).
    rewrite (inv_next _ Hinv).
    apply N.leb_gt in Hroom. rewrite Hroom.
    split; [done|]. cbn [after_create campaigns]. rewrite length_app. cbn [length]. lia.
Qed.

(** * The claims *)

(** C1, refuted as stated: after the refund of the run [Scenario.refunded] the
    entries of campaign 0 add up to 0 while its [raised] is still 300, so the
    sum of the entries does not equal [raised] in every reachable state. *)
Lemma sum_equals_raised_fails_after_refund :
  ~ (forall self t tr s cid c,
       exec self tr (new t) = Some s ->
       campaigns s !! N.to_nat cid = Some c ->
       ledger_sum (contributions s) cid = raised c).
Proof.
  intros H.
  specialize (H Scenario.engine Scenario.start Scenario.refunded
                (default (new Scenario.start)
                   (exec Scenario.engine Scenario.refunded (new Scenario.start)))
                0
                {| id := 0; title := "well"; description := "a village well";
                   goal := 1000; deadline := 110; owner := Scenario.alice;
                   raised := 300; completed := true |}).
  vm_compute in H. specialize (H eq_refl eq_refl). discriminate H.
Qed.

(** C1, amended: in every state reachable from the constructor by successful
    transactions, the entries of an existing campaign add up to at most its
    [raised], and to exactly its [raised] as long as the run holds no
    [claim_refund] for that campaign (a successful [claim_refund] clears the
    entry and leaves [raised] as it was). *)
Theorem sum_le_raised_eq_without_refund self t tr s cid c :
  exec self tr (new t) = Some s ->
  campaigns s !! N.to_nat cid = Some c ->
  ledger_sum (contributions s) cid <= raised c /\
  (Forall (fun call => call_op call <> ClaimRefund cid) tr ->
   ledger_sum (contributions s) cid = raised c).
Proof.
  intros Hexec Hc. split.
  - pose proof (store_inv_exec _ _ _ _ Hexec) as Hinv.
    destruct (inv_sum _ Hinv _ _ Hc) as [Hle _]. by rewrite N2Nat.id in Hle.
  - intros Hno. destruct (sum_matches_exec _ _ _ _ _ Hno Hexec) as [_ Hm]. by apply Hm.
Qed.

(** C1 on the run [Scenario.failed]: one contribution of 300, finalized below
    the goal, nothing refunded yet. *)
Lemma sum_le_raised_eq_without_refund_witness :
  ledger_sum
    (contributions (default (new Scenario.start)
       (exec Scenario.engine Scenario.failed (new Scenario.start)))) 0 <= 300 /\
  (Forall (fun call => call_op call <> ClaimRefund 0) Scenario.failed ->
   ledger_sum
     (contributions (default (new Scenario.start)
        (exec Scenario.engine Scenario.failed (new Scenario.start)))) 0 = 300).
Proof.
  apply (sum_le_raised_eq_without_refund Scenario.engine Scenario.start
           Scenario.failed _ 0
           {| id := 0; title := "well"; description := "a village well";
              goal := 1000; deadline := 110; owner := Scenario.alice;
              raised := 300; completed := true |}).
  - vm_compute. reflexivity.
  - vm_compute. reflexivity.
Defined.



(** C3: a successful [claim_refund] clears the entry of the caller and has
    the token contract transfer the full recorded contribution from the
    escrow account to the caller; from then on - directly afterwards and
    after any further successful transactions - every [claim_refund] of the
    same caller for the same campaign fails with [NoContribution] and leaves
    the state as it is. *)
Theorem second_refund_is_NoContribution env cid s s1 :
  claim_refund env cid s = (Ok tt, s1) ->
  (exists c, campaigns s !! N.to_nat cid = Some c /\
     completed c = true /\ raised c < goal c) /\
  get_contribution s1 cid (caller env) = 0 /\
  Token.transfer (account_id env) (caller env)
    (get_contribution s cid (caller env)) (token_contract s) = Ok (token_contract s1) /\
  forall self tr s2 env2,
    exec self tr s1 = Some s2 ->
    caller env2 = caller env ->
    claim_refund env2 cid s2 = (Err NoContribution, s2).
Proof.
  intros (c&t&Hc&Hcompl&Hr&Hne&Ht&->)%claim_refund_Ok.
  split; [eauto|]. split; [|split].
  - unfold get_contribution. cbn [after_refund contributions]. by rewrite lookup_insert_eq.
  - done.
  - intros self tr s2 env2 Hexec Hcaller.
    apply refund_spent_NoContribution. rewrite Hcaller.
    apply (exec_preserves (refund_spent cid (caller env)) self) with (tr := tr)
      (s := after_refund env cid t s); [|done|].
    + intros call sa sb Ha Hstep. by eapply refund_spent_step.
    + exists c. unfold get_contribution. cbn [after_refund campaigns contributions].
      by rewrite lookup_insert_eq.
Qed.

(** C3 on the refund that ends the run [Scenario.refunded]. *)
Lemma second_refund_is_NoContribution_witness :
  let s := default (new Scenario.start)
             (exec Scenario.engine Scenario.failed (new Scenario.start)) in
  let s1 := default (new Scenario.start)
              (exec Scenario.engine Scenario.refunded (new Scenario.start)) in
  let env := env_of Scenario.engine (Scenario.call Scenario.bob 120 (ClaimRefund 0)) in
  (exists c, campaigns s !! N.to_nat 0 = Some c /\
     completed c = true /\ raised c < goal c) /\
  get_contribution s1 0 (caller env) = 0 /\
  Token.transfer (account_id env) (caller env)
    (get_contribution s 0 (caller env)) (token_contract s) = Ok (token_contract s1) /\
  forall self tr s2 env2,
    exec self tr s1 = Some s2 ->
    caller env2 = caller env ->
    claim_refund env2 0 s2 = (Err NoContribution, s2).
Proof.
  apply (second_refund_is_NoContribution
           (env_of Scenario.engine (Scenario.call Scenario.bob 120 (ClaimRefund 0))) 0).
  vm_compute. reflexivity.
Defined.

(** C4, refuted as stated: the campaign of the run [Scenario.failed] is
    completed; bob, who is not its owner, calls [finalize] and is turned away
    with [OnlyOwner], not with [CampaignCompleted]. *)
Lemma finalize_of_completed_by_other_is_not_CampaignCompleted :
  ~ (forall env cid s c,
       campaigns s !! N.to_nat cid = Some c -> completed c = true ->
       (finalize env cid s).1 = Err CampaignCompleted).
Proof.
  intros H.
  specialize (H (env_of Scenario.engine (Scenario.call Scenario.bob 120 (Finalize 0))) 0
                (default (new Scenario.start)
                   (exec Scenario.engine Scenario.failed (new Scenario.start)))
                {| id := 0; title := "well"; description := "a village well";
                   goal := 1000; deadline := 110; owner := Scenario.alice;
                   raised := 300; completed := true |}).
  vm_compute in H. specialize (H eq_refl eq_refl). discriminate H.
Qed.

(** C4, amended: [completed] goes from [false] to [true] at most once.
    Whatever the outcome of a call, a completed campaign stays completed; the
    only call that turns [completed] from [false] to [true] is [finalize] of
    that campaign by its owner after the deadline; [finalize] of a completed
    campaign fails and changes nothing - with [CampaignCompleted] when the
    owner calls, with [OnlyOwner] when anyone else does; and along every run
    a completed campaign stays completed. *)
Theorem completed_is_set_once_and_for_all :
  (forall env op s i c,
     campaigns s !! i = Some c -> completed c = true ->
     exists c', campaigns (run env op s).2 !! i = Some c' /\ completed c' = true) /\
  (forall env op s i c c',
     campaigns s !! i = Some c -> campaigns (run env op s).2 !! i = Some c' ->
     completed c = false -> completed c' = true ->
     op = Finalize (N.of_nat i) /\ caller env = owner c /\
     deadline c < block_timestamp env) /\
  (forall env cid s c,
     campaigns s !! N.to_nat cid = Some c -> completed c = true ->
     finalize env cid s =
       (Err (if decide (caller env = owner c) then CampaignCompleted else OnlyOwner), s)) /\
  (forall self tr s s' i c,
     exec self tr s = Some s' ->
     campaigns s !! i = Some c -> completed c = true ->
     exists c', campaigns s' !! i = Some c' /\ completed c' = true).
Proof.
  split; [|split; [|split]].
  - intros env op s i c. apply run_keeps_completed.
  - intros env op s i c c' Hc Hc' Hf Ht.
    destruct (run_campaign_cases env op s i c Hc) as (c1&Hc1&Hcase).
    assert (c1 = c') as -> by congruence.
    destruct Hcase as [->|[[r ->]|(_&?&?&_&?)]]; [cbn in *; congruence..|done].
  - intros env cid s c Hc Hcompl. rewrite finalize_eq, Hc, Hcompl.
    destruct (decide (caller env = owner c)) as [Ho|Ho].
    + by rewrite bool_decide_eq_true_2.
    + by rewrite bool_decide_eq_false_2.
  - intros self tr s s' i c. apply exec_keeps_completed.
Qed.

(** C5, refuted as stated: once [u32::MAX] campaigns are stored - a state
    reached by creating them one after the other - [create_campaign] with a
    positive goal and a deadline in the future neither fails with
    [InvalidParameters] nor appends and returns an id: the vector is full and
    the call aborts. *)
Lemma create_campaign_aborts_when_full :
  ~ (forall self t tr s env ti d g dl,
       exec self tr (new t) = Some s ->
       g <> 0 -> block_timestamp env < dl ->
       exists n s', create_campaign env ti d g dl s = (Ok n, s')).
Proof.
  intros H.
  destruct (reach_any_length Scenario.engine Scenario.start (N.to_nat u32_max))
    as (tr & s & Hexec & Hlen); [lia|].
  destruct (H Scenario.engine Scenario.start tr s
              {| caller := Scenario.alice; block_timestamp := 10;
                 account_id := Scenario.engine |}
              "well" "a village well" 1000 110 Hexec) as (n & s' & Hok); [done..|].
  apply create_campaign_Ok in Hok as (_ & _ & Hroom & _).
  unfold campaigns_len in Hroom. lia.
Qed.

(** C5, amended: [create_campaign] fails with [InvalidParameters] if and
    only if [goal = 0] or [deadline <= now], and then leaves the state alone;
    otherwise, as long as fewer than [u32::MAX] campaigns are stored and the
    counter is below [u32::MAX], it appends the campaign with the caller as
    owner, nothing raised, not completed and the title, description, goal
    and deadline as given, under the id [next_campaign_id], which it returns
    and then raises by one. Ids start at 0; in a state reached from the
    constructor the counter is the number of campaigns, so that with fewer
    than [u32::MAX] campaigns stored the call succeeds, the id it hands out
    is the number of campaigns stored so far, no stored campaign carries it,
    and [get_campaign] finds the new campaign under it. *)
Theorem create_campaign_validates_and_appends env t d g dl s :
  ((create_campaign env t d g dl s).1 = Err InvalidParameters <->
     g = 0 \/ dl <= block_timestamp env) /\
  (g = 0 \/ dl <= block_timestamp env ->
     create_campaign env t d g dl s = (Err InvalidParameters, s)) /\
  (g <> 0 -> block_timestamp env < dl ->
   campaigns_len s < u32_max -> next_campaign_id s < u32_max ->
     exists s',
       create_campaign env t d g dl s = (Ok (next_campaign_id s), s') /\
       campaigns s' = campaigns s ++
         [{| id := next_campaign_id s; title := t; description := d; goal := g;
             deadline := dl; owner := caller env; raised := 0; completed := false |}] /\
       next_campaign_id s' = next_campaign_id s + 1 /\
       contributions s' = contributions s /\
       token_contract s' = token_contract s) /\
  (forall tok, next_campaign_id (new tok) = 0) /\
  (forall self tok tr,
     exec self tr (new tok) = Some s ->
     g <> 0 -> block_timestamp env < dl ->
     campaigns_len s < u32_max ->
     let n := N.of_nat (length (campaigns s)) in
     let c := {| id := n; title := t; description := d; goal := g;
                 deadline := dl; owner := caller env; raised := 0;
                 completed := false |} in
     (forall i c', campaigns s !! i = Some c' -> id c' <> n) /\
     exists s',
       create_campaign env t d g dl s = (Ok n, s') /\
       campaigns s' = campaigns s ++ [c] /\
       next_campaign_id s' = n + 1 /\
       get_campaign s' n = Ok c).
Proof.
  assert (g = 0 \/ dl <= block_timestamp env ->
          create_campaign env t d g dl s = (Err InvalidParameters, s)) as Hbad.
  { intros Hchk. rewrite create_campaign_eq.
    destruct ((g =? 0) || (dl <=? block_timestamp env)) eqn:Hb; [done|].
    apply orb_false_iff in Hb as [Hg%N.eqb_neq Hdl%N.leb_gt]. lia. }
  assert (g <> 0 -> block_timestamp env < dl ->
          campaigns_len s < u32_max -> next_campaign_id s < u32_max ->
          create_campaign env t d g dl s =
            (Ok (next_campaign_id s), after_create env t d g dl s)) as Hgood.
  { intros Hg Hdl Hlen Hnext. rewrite create_campaign_eq.
    apply N.eqb_neq in Hg. apply N.leb_gt in Hdl, Hlen, Hnext.
    by rewrite Hg, Hdl, Hlen, Hnext. }
  split; [|split; [done|split; [|split; [done|]]]].
  - split; [|by intros ->%Hbad].
    rewrite create_campaign_eq.
    destruct ((g =? 0) || (dl <=? block_timestamp env)) eqn:Hb.
    + apply orb_true_iff in Hb as [Hg%N.eqb_eq|Hdl%N.leb_le]; auto.
    + destruct (u32_max <=? campaigns_len s); [discriminate|].
      destruct (u32_max <=? next_campaign_id s); discriminate.
  - intros Hg Hdl Hlen Hnext. exists (after_create env t d g dl s).
    by rewrite Hgood.
  - intros self tok tr Hexec Hg Hdl Hlen. cbv zeta.
    pose proof (store_inv_exec _ _ _ _ Hexec) as [Hnext _ Hids _ _].
    fold (campaigns_len s). rewrite <- Hnext. split.
    + intros i c' Hc'. rewrite (Hids _ _ Hc'), Hnext. unfold campaigns_len.
      apply lookup_lt_Some in Hc'. lia.
    + exists (after_create env t d g dl s).
      rewrite Hgood by (done || by rewrite Hnext).
      split; [done|]. split; [done|]. split; [done|].
      unfold get_campaign, campaigns_len.
      cbn [after_create campaigns]. rewrite length_app. cbn [length].
      rewrite Hnext. unfold campaigns_len.
      destruct (_ <=? _) eqn:Hle; [apply N.leb_le in Hle; lia|].
      rewrite Nat2N.id, lookup_app_r by done.
      by rewrite Nat.sub_diag.
Qed.

(** C5 on the empty store: the first campaign gets the id 0. *)
Lemma create_campaign_validates_and_appends_witness :
  let env := {| caller := Scenario.alice; block_timestamp := 10;
                account_id := Scenario.engine |} in
  exists s',
    create_campaign env "well" "a village well" 1000 110 (new Scenario.start) =
      (Ok 0, s') /\
    campaigns s' =
      [{| id := 0; title := "well"; description := "a village well"; goal := 1000;
          deadline := 110; owner := Scenario.alice; raised := 0; completed := false |}] /\
    next_campaign_id s' = 1 /\
    contributions s' = ∅ /\
    token_contract s' = Scenario.start.
Proof.
  pose proof (create_campaign_validates_and_appends
                {| caller := Scenario.alice; block_timestamp := 10;
                   account_id := Scenario.engine |}
                "well" "a village well" 1000 110 (new Scenario.start))
    as (_ & _ & Hok & _).
  apply Hok; vm_compute; (reflexivity || discriminate).
Defined.

(** C6: on an existing campaign, [finalize] called by anyone but the owner
    fails with [OnlyOwner] and leaves the state alone, whatever the time of
    the call and whether or not the campaign is completed. *)
Theorem finalize_by_other_is_OnlyOwner env cid s c :
  campaigns s !! N.to_nat cid = Some c ->
  caller env <> owner c ->
  finalize env cid s = (Err OnlyOwner, s).
Proof.
  intros Hc Hne. rewrite finalize_eq, Hc.
  by rewrite bool_decide_eq_false_2.
Qed.

(** C6 on the run [Scenario.failed]: bob is not the owner, the deadline has
    passed and the campaign is completed. *)
Lemma finalize_by_other_is_OnlyOwner_witness :
  let s := default (new Scenario.start)
             (exec Scenario.engine Scenario.failed (new Scenario.start)) in
  finalize {| caller := Scenario.bob; block_timestamp := 5000;
              account_id := Scenario.engine |} 0 s = (Err OnlyOwner, s).
Proof.
  apply (finalize_by_other_is_OnlyOwner _ 0 _
           {| id := 0; title := "well"; description := "a village well";
              goal := 1000; deadline := 110; owner := Scenario.alice;
              raised := 300; completed := true |}).
  - vm_compute. reflexivity.
  - vm_compute. discriminate.
Defined.

(** C7: on an existing campaign that is not completed, [contribute] fails
    with [DeadlineReached] exactly when [now > deadline], and [finalize]
    called by the owner fails with [DeadlineNotReached] exactly when
    [now <= deadline]; at [now = deadline] the contribution passes the
    deadline check and the finalization is rejected. *)
Theorem deadline_checks_are_strict env cid amount s c :
  campaigns s !! N.to_nat cid = Some c ->
  completed c = false ->
  ((contribute env cid amount s).1 = Err DeadlineReached <->
     deadline c < block_timestamp env) /\
  (caller env = owner c ->
     ((finalize env cid s).1 = Err DeadlineNotReached <->
        block_timestamp env <= deadline c)) /\
  (block_timestamp env = deadline c ->
     (contribute env cid amount s).1 <> Err DeadlineReached /\
     (caller env = owner c -> finalize env cid s = (Err DeadlineNotReached, s))).
Proof.
  intros Hc Hcompl.
  assert ((contribute env cid amount s).1 = Err DeadlineReached <->
            deadline c < block_timestamp env) as Hcontribute.
  { rewrite contribute_eq, Hc, Hcompl.
    destruct (deadline c <? block_timestamp env) eqn:Hd.
    - apply N.ltb_lt in Hd. done.
    - apply N.ltb_ge in Hd. split; [|lia].
      destruct (Token.transfer_from _ _ _ _ _) as [t|e|] eqn:Ht; cbn [fst].
      + destruct (_ <=? u256_max); [destruct (_ <=? u256_max)|]; discriminate.
      + apply transfer_from_Err in Ht as [->| ->]; discriminate.
      + discriminate. }
  assert (caller env = owner c ->
            let r := finalize env cid s in
            (block_timestamp env <= deadline c -> r = (Err DeadlineNotReached, s)) /\
            (deadline c < block_timestamp env -> r.1 <> Err DeadlineNotReached)) as Hfinalize.
  { intros Ho. cbv zeta. rewrite finalize_eq, Hc, Hcompl.
    rewrite bool_decide_eq_true_2 by done. cbn [negb].
    destruct (block_timestamp env <=? deadline c) eqn:Hd.
    - apply N.leb_le in Hd. split; [done|lia].
    - apply N.leb_gt in Hd. split; [lia|]. intros _. cbv zeta.
      destruct (goal c <=? raised c); [|discriminate].
      destruct (Token.transfer _ _ _ _) as [t|e|] eqn:Ht; cbn [fst]; try discriminate.
      apply transfer_Err in Ht as [-> _]. discriminate. }
  split; [done|]. split.
  - intros Ho. destruct (Hfinalize Ho) as [Hle Hgt]. split.
    + intros Hr. destruct (N.le_gt_cases (block_timestamp env) (deadline c)) as [|Hlt];
        [done|]. by apply Hgt in Hlt.
    + intros Hd. by rewrite (Hle Hd).
  - intros Heq. split.
    + rewrite Hcontribute. lia.
    + intros Ho. destruct (Hfinalize Ho) as [Hle _]. apply Hle. lia.
Qed.

(** C7 on the run [Scenario.funded], at the deadline itself. *)
Lemma deadline_checks_are_strict_witness :
  let s := default (new Scenario.start)
             (exec Scenario.engine Scenario.funded (new Scenario.start)) in
  let env := {| caller := Scenario.alice; block_timestamp := 110;
                account_id := Scenario.engine |} in
  ((contribute env 0 5 s).1 = Err DeadlineReached <-> 110 < 110) /\
  (Scenario.alice = Scenario.alice ->
     ((finalize env 0 s).1 = Err DeadlineNotReached <-> 110 <= 110)) /\
  (110 = 110 ->
     (contribute env 0 5 s).1 <> Err DeadlineReached /\
     (Scenario.alice = Scenario.alice -> finalize env 0 s = (Err DeadlineNotReached, s))).
Proof.
  apply (deadline_checks_are_strict
           {| caller := Scenario.alice; block_timestamp := 110;
              account_id := Scenario.engine |} 0 5 _
           {| id := 0; title := "well"; description := "a village well";
              goal := 1000; deadline := 110; owner := Scenario.alice;
              raised := 300; completed := false |}).
  - vm_compute. reflexivity.
  - reflexivity.
Defined.




(** C9: over-funding is allowed and paid in full. The outcome of
    [contribute] is the same whatever the goal of the campaign, and a
    contribution to an open campaign goes through as soon as the token
    transfer and the two additions do, also when [raised] has met or passed
    the goal; a successful [finalize] of a campaign with [raised >= goal]
    has the token contract transfer all of [raised], any surplus over the
    goal included, from the escrow account to the owner. *)
Theorem overfunding_is_allowed_and_paid_in_full env cid s c :
  campaigns s !! N.to_nat cid = Some c ->
  (forall amount g,
     (contribute env cid amount
        (set_campaigns (<[N.to_nat cid := set_goal g c]> (campaigns s)) s)).1 =
     (contribute env cid amount s).1) /\
  (forall amount,
     completed c = false ->
     block_timestamp env <= deadline c ->
     amount <= Token.allowance (token_contract s) (caller env) (account_id env) ->
     amount <= Token.balance_of (token_contract s) (caller env) ->
     raised c + amount <= u256_max ->
     get_contribution s cid (caller env) + amount <= u256_max ->
     exists s', contribute env cid amount s = (Ok tt, s') /\
       campaigns s' !! N.to_nat cid = Some (set_raised (raised c + amount) c)) /\
  (forall s',
     finalize env cid s = (Ok tt, s') ->
     goal c <= raised c ->
     Token.transfer (account_id env) (owner c) (raised c) (token_contract s)
       = Ok (token_contract s') /\
     raised c <= Token.balance_of (token_contract s) (account_id env) /\
     (owner c <> account_id env ->
        Token.balance_of (token_contract s') (owner c) =
          Token.balance_of (token_contract s) (owner c) + raised c /\
        Token.balance_of (token_contract s') (account_id env) =
          Token.balance_of (token_contract s) (account_id env) - raised c)).
Proof.
  intros Hc. pose proof (lookup_lt_Some _ _ _ Hc) as Hlt.
  split; [|split].
  - intros amount g. rewrite !contribute_eq, Hc.
    cbn [campaigns set_campaigns token_contract]. rewrite list_lookup_insert_eq by done.
    cbn [completed deadline raised set_goal].
    destruct (completed c); [done|].
    destruct (deadline c <? block_timestamp env); [done|].
    destruct (Token.transfer_from _ _ _ _ _); [|done..].
    destruct (raised c + amount <=? u256_max); [|done].
    unfold get_contribution. cbn [contributions set_campaigns].
    by destruct (_ <=? u256_max).
  - intros amount Hcompl Hd Hallow Hbal Hr He.
    destruct (transfer_from_enough (account_id env) (caller env) (account_id env)
                amount (token_contract s) Hallow Hbal) as [t' Ht].
    exists (after_contribute env cid amount c t' s).
    rewrite contribute_eq, Hc, Hcompl, Ht.
    apply N.ltb_ge in Hd. apply N.leb_le in Hr, He. rewrite Hd, Hr, He.
    split; [done|]. cbn [after_contribute campaigns].
    by rewrite list_lookup_insert_eq.
  - intros s' (c0&t'&Hc0&Ho&Hcompl&Hd&Ht&->)%finalize_Ok Hg.
    assert (c0 = c) as -> by congruence.
    apply N.leb_le in Hg. rewrite Hg in Ht. cbn [after_finalize token_contract].
    split; [done|].
    apply transfer_Ok in Ht as (Hle&_&_&Hbal).
    split; [done|]. intros Hne. rewrite !Hbal.
    rewrite decide_True by done. rewrite decide_False by done.
    rewrite decide_False by done. by rewrite decide_True by done.
Qed.

(** C9 on the run [Scenario.overfunded]: 1100 raised for a goal of 1000, and
    1100 paid to alice by the finalization that ends [Scenario.paid_out]. *)
Lemma overfunding_is_allowed_and_paid_in_full_witness :
  let s := default (new Scenario.start)
             (exec Scenario.engine Scenario.overfunded (new Scenario.start)) in
  let s' := default (new Scenario.start)
              (exec Scenario.engine Scenario.paid_out (new Scenario.start)) in
  Token.transfer Scenario.engine Scenario.alice 1100 (token_contract s)
    = Ok (token_contract s') /\
  1100 <= Token.balance_of (token_contract s) Scenario.engine /\
  (Scenario.alice <> Scenario.engine ->
     Token.balance_of (token_contract s') Scenario.alice =
       Token.balance_of (token_contract s) Scenario.alice + 1100 /\
     Token.balance_of (token_contract s') Scenario.engine =
       Token.balance_of (token_contract s) Scenario.engine - 1100).
Proof.
  cbv zeta.
  refine (proj2 (proj2 (overfunding_is_allowed_and_paid_in_full
    (env_of Scenario.engine (Scenario.call Scenario.alice 111 (Finalize 0))) 0 _
    {| id := 0; title := "well"; description := "a village well";
       goal := 1000; deadline := 110; owner := Scenario.alice;
       raised := 1100; completed := false |} _)) _ _ _).
  - vm_compute. reflexivity.
  - vm_compute. reflexivity.
  - vm_compute. discriminate.
Defined.

(** C10: in every state reachable from the constructor by successful
    transactions, [next_campaign_id] is the number of stored campaigns and the
    campaign stored at index [i] has [id] equal to [i]; hence [get_campaign]
    succeeds exactly for the ids below [get_campaign_count], and the record
    it returns carries the id asked for. *)
Theorem ids_are_indices self t tr s :
  exec self tr (new t) = Some s ->
  next_campaign_id s = N.of_nat (length (campaigns s)) /\
  (forall i c, campaigns s !! i = Some c -> id c = N.of_nat i) /\
  (forall cid, (exists c, get_campaign s cid = Ok c) <-> cid < get_campaign_count s) /\
  (forall cid c, get_campaign s cid = Ok c -> id c = cid).
Proof.
  intros Hexec. pose proof (store_inv_exec _ _ _ _ Hexec) as [Hnext _ Hids _ _].
  split; [done|]. split; [done|].
  assert (forall cid c, get_campaign s cid = Ok c ->
            cid < campaigns_len s /\ campaigns s !! N.to_nat cid = Some c) as Hget.
  { intros cid c. unfold get_campaign.
    destruct (campaigns_len s <=? cid) eqn:Hle; [discriminate|].
    apply N.leb_gt in Hle.
    destruct (campaigns s !! N.to_nat cid) as [c'|]; [|discriminate].
    intros [= ->]. done. }
  split.
  - intros cid. unfold get_campaign_count. split.
    + intros [c Hc]. by apply Hget in Hc as [? _].
    + intros Hlt. unfold get_campaign.
      destruct (campaigns_len s <=? cid) eqn:Hle.
      { apply N.leb_le in Hle. lia. }
      destruct (lookup_lt_is_Some_2 (campaigns s) (N.to_nat cid)) as [c ->]; [|eauto].
      unfold campaigns_len in Hlt. lia.
  - intros cid c Hc. apply Hget in Hc as [_ Hc].
    rewrite (Hids _ _ Hc). apply N2Nat.id.
Qed.

(** C10 on the run [Scenario.funded]. *)
Lemma ids_are_indices_witness :
  let s := default (new Scenario.start)
             (exec Scenario.engine Scenario.funded (new Scenario.start)) in
  next_campaign_id s = N.of_nat (length (campaigns s)) /\
  (forall i c, campaigns s !! i = Some c -> id c = N.of_nat i) /\
  (forall cid, (exists c, get_campaign s cid = Ok c) <-> cid < get_campaign_count s) /\
  (forall cid c, get_campaign s cid = Ok c -> id c = cid).
Proof.
  apply (ids_are_indices Scenario.engine Scenario.start Scenario.funded).
  vm_compute. reflexivity.
Defined.

(** * Further properties of the code *)

(** ** The queries *)

Lemma omap_lookup_seq {A} (p l : list A) :
  omap (fun i => (p ++ l) !! i) (seq (length p) (length l)) = l.
Proof.
  revert p. induction l as [|x l IH]; intros p; [done|].
  cbn [length seq]. csimpl.
  rewrite lookup_app_r by done. rewrite Nat.sub_diag. csimpl.
  f_equal. specialize (IH (p ++ [x])).
  rewrite length_app, <- app_assoc in IH. cbn [length app] in IH.
  by rewrite Nat.add_1_r in IH.
Qed.

Lemma get_all_campaigns_eq s : get_all_campaigns s = campaigns s.
Proof. apply (omap_lookup_seq [] (campaigns s)). Qed.

Lemma get_campaign_lookup s cid :
  get_campaign s cid =
  match campaigns s !! N.to_nat cid with
  | Some c => Ok c
  | None => Err CampaignNotFound
  end.
Proof.
  unfold get_campaign, campaigns_len.
  destruct (N.of_nat (length (campaigns s)) <=? cid) eqn:Hle.
  - apply N.leb_le in Hle. rewrite lookup_ge_None_2 by lia. done.
  - apply N.leb_gt in Hle.
    destruct (lookup_lt_is_Some_2 (campaigns s) (N.to_nat cid)) as [c ->]; [lia|done].
Qed.

(** X1: in every state, [get_all_campaigns] hands back the stored campaigns
    in the order of their creation, as many as [get_campaign_count] says;
    [get_campaign] never aborts on its [unwrap], and for every id it returns
    the entry of that list at the id, or [CampaignNotFound] past its end. *)
Theorem queries_agree s :
  get_all_campaigns s = campaigns s /\
  N.of_nat (length (get_all_campaigns s)) = get_campaign_count s /\
  (forall cid, get_campaign s cid <> Panic) /\
  (forall cid,
     get_campaign s cid =
     match get_all_campaigns s !! N.to_nat cid with
     | Some c => Ok c
     | None => Err CampaignNotFound
     end) /\
  (forall cid, get_campaign s cid = Err CampaignNotFound <-> get_campaign_count s <= cid).
Proof.
  rewrite get_all_campaigns_eq. split; [done|]. split; [done|]. split; [|split].
  - intros cid. rewrite get_campaign_lookup. by destruct (_ !! _).
  - apply get_campaign_lookup.
  - intros cid. unfold get_campaign_count, campaigns_len. rewrite get_campaign_lookup.
    destruct (campaigns s !! N.to_nat cid) as [c|] eqn:Hc.
    + apply lookup_lt_Some in Hc. split; [done|lia].
    + apply lookup_ge_None in Hc. split; [lia|done].
Qed.

(** ** Campaign records under calls *)

(** Whatever the outcome of a call, a campaign stays where it is stored and
    is unchanged, or was open and has got more [raised], or was open and is
    now completed. *)
Lemma run_campaign_change env op s i c :
  campaigns s !! i = Some c ->
  exists c', campaigns (run env op s).2 !! i = Some c' /\
    (c' = c \/
     (completed c = false /\ exists a, c' = set_raised (raised c + a) c) \/
     (completed c = false /\ c' = set_completed true c)).
Proof.
  intros Hc.
  assert (forall f, exists c', campaigns (call_token f s).2 !! i = Some c' /\ c' = c) as Hcall.
  { intros f. unfold call_token. destruct (f (token_contract s)); eauto. }
  op_cases op.
  - unfold bind. rewrite create_campaign_eq.
    assert (forall x, (campaigns s ++ [x]) !! i = Some c) as Happ.
    { intros x. rewrite lookup_app_l; [done|]. by eapply lookup_lt_Some. }
    destruct (_ || _); [eauto|].
    destruct (u32_max <=? campaigns_len s); [eauto|].
    destruct (u32_max <=? next_campaign_id s); cbn; eauto.
  - rewrite contribute_eq.
    destruct (campaigns s !! N.to_nat cid) as [c0|] eqn:Hc0; [|eauto].
    destruct (completed c0) eqn:Hcompl; [eauto|].
    destruct (deadline c0 <? block_timestamp env); [eauto|].
    destruct (Token.transfer_from _ _ _ _ _) as [t|e|]; [|eauto..].
    assert (exists c', <[N.to_nat cid := set_raised (raised c0 + a) c0]> (campaigns s) !! i
                       = Some c' /\
              (c' = c \/ (completed c = false /\ exists a, c' = set_raised (raised c + a) c)))
      as (c'&Hc'&Hcase).
    { destruct (decide (N.to_nat cid = i)) as [<-|Hne].
      - rewrite list_lookup_insert_eq by (by eapply lookup_lt_Some).
        assert (c0 = c) as -> by congruence. eauto 6.
      - rewrite list_lookup_insert_ne by done. eauto. }
    destruct (raised c0 + a <=? u256_max); [|eauto].
    destruct (_ <=? u256_max); cbn; exists c'; (split; [done|]); destruct Hcase; eauto.
  - rewrite finalize_eq.
    destruct (campaigns s !! N.to_nat cid) as [c0|] eqn:Hc0; [|eauto].
    destruct (negb _); [eauto|].
    destruct (completed c0) eqn:Hcompl; [eauto|].
    destruct (block_timestamp env <=? deadline c0); [eauto|]. cbv zeta.
    assert (exists c', <[N.to_nat cid := set_completed true c0]> (campaigns s) !! i = Some c' /\
              (c' = c \/ (completed c = false /\ c' = set_completed true c)))
      as (c'&Hc'&Hcase).
    { destruct (decide (N.to_nat cid = i)) as [<-|Hne].
      - rewrite list_lookup_insert_eq by (by eapply lookup_lt_Some).
        assert (c0 = c) as -> by congruence. eauto.
      - rewrite list_lookup_insert_ne by done. eauto. }
    destruct (goal c0 <=? raised c0);
      [destruct (Token.transfer _ _ _ _)|]; cbn; exists c'; (split; [done|]);
      destruct Hcase; eauto.
  - rewrite claim_refund_eq.
    destruct (campaigns s !! N.to_nat cid) as [c0|] eqn:Hc0; [|eauto].
    destruct (negb (completed c0)); [eauto|].
    destruct (goal c0 <=? raised c0); [eauto|].
    destruct (_ =? 0); [eauto|]. cbv zeta.
    destruct (Token.transfer _ _ _ _); cbn; eauto.
  - destruct (Hcall (Token.mint to a)) as (c'&?&->); eauto.
  - destruct (Hcall (Token.approve (caller env) sp a)) as (c'&?&->); eauto.
  - destruct (Hcall (Token.transfer (caller env) to a)) as (c'&?&->); eauto.
  - destruct (Hcall (Token.transfer_from (caller env) from to a)) as (c'&?&->); eauto.
Qed.

Lemma evolves_refl c : evolves c c.
Proof. unfold evolves. repeat split; (done || lia). Qed.

Lemma evolves_trans c1 c2 c3 : evolves c1 c2 -> evolves c2 c3 -> evolves c1 c3.
Proof.
  intros (?&?&?&?&?&?&?&Hf1) (?&?&?&?&?&?&?&Hf2).
  unfold evolves. repeat split; try congruence; try lia.
  intros Hc. specialize (Hf1 Hc). subst c2. by apply Hf2.
Qed.

Lemma run_evolves env op s i c :
  campaigns s !! i = Some c ->
  exists c', campaigns (run env op s).2 !! i = Some c' /\ evolves c c'.
Proof.
  intros Hc.
  destruct (run_campaign_change env op s i c Hc)
    as (c'&Hc'&[E|[[Hopen [a E]]|[Hopen E]]]); exists c'; (split; [done|]); subst c'.
  - apply evolves_refl.
  - unfold evolves. cbn. repeat split; try done; try lia; congruence.
  - unfold evolves. cbn. repeat split; try done; try lia; congruence.
Qed.

Lemma exec_evolves self tr s s' i c :
  exec self tr s = Some s' ->
  campaigns s !! i = Some c ->
  exists c', campaigns s' !! i = Some c' /\ evolves c c'.
Proof.
  revert s c. induction tr as [|call tr IH]; intros s c Hexec Hc.
  - injection Hexec as <-. eauto using evolves_refl.
  - cbn [exec] in Hexec.
    destruct (run_evolves (env_of self call) (call_op call) s i c Hc) as (c1&Hc1&He1).
    destruct (run (env_of self call) (call_op call) s) as [[[]| |] s1]; try discriminate.
    destruct (IH s1 c1 Hexec Hc1) as (c'&Hc'&He'). eauto using evolves_trans.
Qed.

(** X4: whatever its outcome, a call leaves every stored campaign in its
    place with the same id, title, description, goal, deadline and owner and
    with a [raised] that has not gone down, and leaves a completed campaign
    exactly as it was; the same holds from any state to any state reached
    from it by successful transactions. *)
Theorem campaigns_only_evolve :
  (forall env op s i c,
     campaigns s !! i = Some c ->
     exists c', campaigns (run env op s).2 !! i = Some c' /\ evolves c c') /\
  (forall self tr s s' i c,
     exec self tr s = Some s' ->
     campaigns s !! i = Some c ->
     exists c', campaigns s' !! i = Some c' /\ evolves c c').
Proof.
  split.
  - apply run_evolves.
  - apply exec_evolves.
Qed.

(** ** What a contribution moves *)

(** X2: a successful [contribute] adds [amount] to the entry of the caller,
    to the sum of the entries of the campaign and to the [raised] of the
    campaign, whose other fields stay; the other campaigns, their entries
    and the entries of the other contributors are as before; and the token
    contract has carried out the [transfer_from] of [amount] from the caller
    to the escrow account, spent by the escrow account. *)
Theorem contribute_adds_amount_to_entry_and_raised env cid amount s s' :
  contribute env cid amount s = (Ok tt, s') ->
  get_contribution s' cid (caller env) = get_contribution s cid (caller env) + amount /\
  ledger_sum (contributions s') cid = ledger_sum (contributions s) cid + amount /\
  (exists c, get_campaign s cid = Ok c /\
     get_campaign s' cid = Ok (set_raised (raised c + amount) c)) /\
  (forall cid', cid' <> cid ->
     get_campaign s' cid' = get_campaign s cid' /\
     ledger_sum (contributions s') cid' = ledger_sum (contributions s) cid' /\
     forall who, get_contribution s' cid' who = get_contribution s cid' who) /\
  (forall who, who <> caller env ->
     get_contribution s' cid who = get_contribution s cid who) /\
  Token.transfer_from (account_id env) (caller env) (account_id env) amount
    (token_contract s) = Ok (token_contract s').
Proof.
  intros (c&t&Hc&Hcompl&Hd&Ht&Hr&He&->)%contribute_Ok.
  pose proof (lookup_lt_Some _ _ _ Hc) as Hlt.
  split; [|split; [|split; [|split; [|split]]]].
  - unfold get_contribution at 1. cbn [after_contribute contributions].
    by rewrite lookup_insert_eq.
  - cbn [after_contribute contributions].
    pose proof (ledger_sum_write (contributions s) cid (caller env)
                  (get_contribution s cid (caller env) + amount) cid) as Hw.
    fold (get_contribution s cid (caller env)) in Hw.
    rewrite !decide_True in Hw by done. lia.
  - exists c. rewrite !get_campaign_lookup. cbn [after_contribute campaigns].
    rewrite Hc. by rewrite list_lookup_insert_eq.
  - intros cid' Hne. split; [|split].
    + rewrite !get_campaign_lookup. cbn [after_contribute campaigns].
      rewrite list_lookup_insert_ne; [done|]. lia.
    + cbn [after_contribute contributions]. by apply ledger_sum_write_other.
    + intros who. unfold get_contribution. cbn [after_contribute contributions].
      rewrite lookup_insert_ne; [done|]. congruence.
  - intros who Hne. unfold get_contribution. cbn [after_contribute contributions].
    rewrite lookup_insert_ne; [done|]. congruence.
  - done.
Qed.

(** X2 on the contribution that ends the run [Scenario.funded]: bob puts 300
    into the campaign of alice. *)
Lemma contribute_adds_amount_to_entry_and_raised_witness :
  let s := default (new Scenario.start)
             (exec Scenario.engine
                [Scenario.call Scenario.alice 10
                   (CreateCampaign "well" "a village well" 1000 110)]
                (new Scenario.start)) in
  let s' := default (new Scenario.start)
              (exec Scenario.engine Scenario.funded (new Scenario.start)) in
  let env := env_of Scenario.engine (Scenario.call Scenario.bob 30 (Contribute 0 300)) in
  get_contribution s' 0 (caller env) = get_contribution s 0 (caller env) + 300 /\
  ledger_sum (contributions s') 0 = ledger_sum (contributions s) 0 + 300 /\
  (exists c, get_campaign s 0 = Ok c /\
     get_campaign s' 0 = Ok (set_raised (raised c + 300) c)) /\
  (forall cid', cid' <> 0 ->
     get_campaign s' cid' = get_campaign s cid' /\
     ledger_sum (contributions s') cid' = ledger_sum (contributions s) cid' /\
     forall who, get_contribution s' cid' who = get_contribution s cid' who) /\
  (forall who, who <> caller env ->
     get_contribution s' 0 who = get_contribution s 0 who) /\
  Token.transfer_from (account_id env) (caller env) (account_id env) 300
    (token_contract s) = Ok (token_contract s').
Proof.
  cbv zeta.
  apply (contribute_adds_amount_to_entry_and_raised
           (env_of Scenario.engine (Scenario.call Scenario.bob 30 (Contribute 0 300)))).
  vm_compute. reflexivity.
Defined.

(** ** What a message never touches *)

(** X3: whatever its outcome, [create_campaign] leaves the contribution
    entries, the token contract and the campaigns stored so far as they are;
    [contribute] leaves the id counter, the number of campaigns, the other
    campaigns and every entry but the one of the caller for this campaign;
    [finalize] leaves the id counter, all contribution entries, the number of
    campaigns and the other campaigns; [claim_refund] leaves the id counter,
    all campaigns and every entry but the one of the caller for this
    campaign. *)
Theorem messages_leave_the_rest_alone :
  (forall env t d g dl s,
     let s' := (create_campaign env t d g dl s).2 in
     contributions s' = contributions s /\
     token_contract s' = token_contract s /\
     forall i c, campaigns s !! i = Some c -> campaigns s' !! i = Some c) /\
  (forall env cid a s,
     let s' := (contribute env cid a s).2 in
     next_campaign_id s' = next_campaign_id s /\
     length (campaigns s') = length (campaigns s) /\
     (forall i, i <> N.to_nat cid -> campaigns s' !! i = campaigns s !! i) /\
     (forall k, k <> (cid, caller env) -> contributions s' !! k = contributions s !! k)) /\
  (forall env cid s,
     let s' := (finalize env cid s).2 in
     next_campaign_id s' = next_campaign_id s /\
     contributions s' = contributions s /\
     length (campaigns s') = length (campaigns s) /\
     (forall i, i <> N.to_nat cid -> campaigns s' !! i = campaigns s !! i)) /\
  (forall env cid s,
     let s' := (claim_refund env cid s).2 in
     next_campaign_id s' = next_campaign_id s /\
     campaigns s' = campaigns s /\
     (forall k, k <> (cid, caller env) -> contributions s' !! k = contributions s !! k)).
Proof.
  split; [|split; [|split]]; cbv zeta.
  - intros env t d g dl s. rewrite create_campaign_eq.
    assert (forall x i c, campaigns s !! i = Some c -> (campaigns s ++ [x]) !! i = Some c)
      as Happ.
    { intros x i c Hc. rewrite lookup_app_l; [done|]. by eapply lookup_lt_Some. }
    destruct (_ || _); [done|].
    destruct (u32_max <=? campaigns_len s); [done|].
    destruct (u32_max <=? next_campaign_id s); frame_goal; apply Happ.
  - intros env cid a s. rewrite contribute_eq.
    destruct (campaigns s !! N.to_nat cid) as [c|]; [|done].
    destruct (completed c); [done|].
    destruct (deadline c <? block_timestamp env); [done|].
    destruct (Token.transfer_from _ _ _ _ _) as [t|e|]; [|done..].
    destruct (raised c + a <=? u256_max); [|done].
    destruct (_ <=? u256_max); frame_goal.
  - intros env cid s. rewrite finalize_eq.
    destruct (campaigns s !! N.to_nat cid) as [c|]; [|done].
    destruct (negb _); [done|].
    destruct (completed c); [done|].
    destruct (block_timestamp env <=? deadline c); [done|]. cbv zeta.
    destruct (goal c <=? raised c); [destruct (Token.transfer _ _ _ _)|]; frame_goal.
  - intros env cid s. rewrite claim_refund_eq.
    destruct (campaigns s !! N.to_nat cid) as [c|]; [|done].
    destruct (negb _); [done|].
    destruct (goal c <=? raised c); [done|].
    destruct (_ =? 0); [done|]. cbv zeta.
    destruct (Token.transfer _ _ _ _); frame_goal.
Qed.

(** ** Events *)

Lemma run_not_Ok_emitted env op s :
  (run env op s).1 <> Ok tt -> emitted (run env op s).2 = emitted s.
Proof.
  op_cases op.
  - unfold bind. rewrite create_campaign_eq.
    destruct (_ || _); [done|].
    destruct (u32_max <=? campaigns_len s); [done|].
    destruct (u32_max <=? next_campaign_id s); done.
  - rewrite contribute_eq.
    destruct (campaigns s !! N.to_nat cid) as [c|]; [|done].
    destruct (completed c); [done|].
    destruct (deadline c <? block_timestamp env); [done|].
    destruct (Token.transfer_from _ _ _ _ _) as [t|e|]; [|done..].
    destruct (raised c + a <=? u256_max); [|done].
    destruct (_ <=? u256_max); done.
  - rewrite finalize_eq.
    destruct (campaigns s !! N.to_nat cid) as [c|]; [|done].
    destruct (negb _); [done|].
    destruct (completed c); [done|].
    destruct (block_timestamp env <=? deadline c); [done|]. cbv zeta.
    destruct (goal c <=? raised c); [destruct (Token.transfer _ _ _ _)|]; done.
  - rewrite claim_refund_eq.
    destruct (campaigns s !! N.to_nat cid) as [c|]; [|done].
    destruct (negb _); [done|].
    destruct (goal c <=? raised c); [done|].
    destruct (_ =? 0); [done|]. cbv zeta.
    destruct (Token.transfer _ _ _ _); done.
  - intros H. by rewrite call_token_not_Ok.
  - intros H. by rewrite call_token_not_Ok.
  - intros H. by rewrite call_token_not_Ok.
  - intros H. by rewrite call_token_not_Ok.
Qed.

Lemma call_token_emitted f s : emitted (call_token f s).2 = emitted s.
Proof. unfold call_token. by destruct (f (token_contract s)). Qed.

(** X5: a message that succeeds appends exactly one event to the log -
    [CampaignCreated] with the id returned, the caller, the goal and the
    deadline; [ContributionMade] with the campaign, the caller and the
    amount; [CampaignFinalized] with the campaign and the flag
    [raised >= goal] of the campaign as it was; [RefundClaimed] with the
    campaign, the caller and the entry as it was - while a call that does
    not succeed, and a call of the token contract, appends nothing. *)
Theorem events_tell_the_successes :
  (forall env t d g dl s n s',
     create_campaign env t d g dl s = (Ok n, s') ->
     emitted s' = emitted s ++ [CampaignCreated n (caller env) g dl]) /\
  (forall env cid a s s',
     contribute env cid a s = (Ok tt, s') ->
     emitted s' = emitted s ++ [ContributionMade cid (caller env) a]) /\
  (forall env cid s s',
     finalize env cid s = (Ok tt, s') ->
     exists c, get_campaign s cid = Ok c /\
       emitted s' = emitted s ++ [CampaignFinalized cid (goal c <=? raised c)]) /\
  (forall env cid s s',
     claim_refund env cid s = (Ok tt, s') ->
     emitted s' = emitted s ++
       [RefundClaimed cid (caller env) (get_contribution s cid (caller env))]) /\
  (forall env op s,
     (run env op s).1 <> Ok tt -> emitted (run env op s).2 = emitted s) /\
  (forall env op s,
     token_op env op <> None -> emitted (run env op s).2 = emitted s).
Proof.
  split; [|split; [|split; [|split; [|split]]]].
  - by intros env t d g dl s n s' (_&_&_&_&->&->)%create_campaign_Ok.
  - by intros env cid a s s' (c&t&_&_&_&_&_&_&->)%contribute_Ok.
  - intros env cid s s' (c&t&Hc&_&_&_&_&->)%finalize_Ok.
    exists c. by rewrite get_campaign_lookup, Hc.
  - by intros env cid s s' (c&t&_&_&_&_&_&->)%claim_refund_Ok.
  - apply run_not_Ok_emitted.
  - intros env op s. op_cases op; cbn [token_op]; try done; intros _; apply call_token_emitted.
Qed.

(** ** Completed campaigns *)

Lemma exec_completed_fixed self tr s s' i c :
  exec self tr s = Some s' ->
  campaigns s !! i = Some c -> completed c = true ->
  campaigns s' !! i = Some c.
Proof.
  intros Hexec Hc Hcompl.
  destruct (exec_evolves _ _ _ _ _ _ Hexec Hc) as (c'&Hc'&He).
  destruct He as (_&_&_&_&_&_&_&Hfix). by rewrite (Hfix Hcompl) in Hc'.
Qed.

(** X6: a completed campaign is closed for good. In every state reached by
    successful transactions from a state in which [get_campaign] returns the
    completed campaign [c], [get_campaign] still returns [c], unchanged;
    every [contribute] to it fails with [CampaignCompleted], every
    [finalize] of it fails, and, if its [raised] has met its goal, every
    [claim_refund] fails with [CampaignSuccessful]; all of them leave the
    state as it is. *)
Theorem completed_campaign_is_closed self tr s s' cid c :
  get_campaign s cid = Ok c ->
  completed c = true ->
  exec self tr s = Some s' ->
  get_campaign s' cid = Ok c /\
  (forall env a, contribute env cid a s' = (Err CampaignCompleted, s')) /\
  (forall env, exists e, finalize env cid s' = (Err e, s')) /\
  (goal c <= raised c ->
     forall env, claim_refund env cid s' = (Err CampaignSuccessful, s')).
Proof.
  rewrite get_campaign_lookup.
  destruct (campaigns s !! N.to_nat cid) as [c0|] eqn:Hc; [|discriminate].
  intros [= ->] Hcompl Hexec.
  pose proof (exec_completed_fixed _ _ _ _ _ _ Hexec Hc Hcompl) as Hc'.
  split; [|split; [|split]].
  - by rewrite get_campaign_lookup, Hc'.
  - intros env a. by rewrite contribute_eq, Hc', Hcompl.
  - intros env. rewrite finalize_eq, Hc', Hcompl.
    destruct (negb _); eauto.
  - intros Hg env. rewrite claim_refund_eq, Hc', Hcompl. cbn [negb].
    apply N.leb_le in Hg. by rewrite Hg.
Qed.

(** X6 on the run [Scenario.paid_out], whose campaign was finalized with
    1100 raised for a goal of 1000, followed by the creation of a second
    campaign by bob. *)
Lemma completed_campaign_is_closed_witness :
  let s := default (new Scenario.start)
             (exec Scenario.engine Scenario.paid_out (new Scenario.start)) in
  let s' := default (new Scenario.start)
              (exec Scenario.engine
                 [Scenario.call Scenario.bob 200 (CreateCampaign "roof" "a new roof" 50 400)]
                 s) in
  let c := set_completed true (Scenario.well 1100) in
  get_campaign s' 0 = Ok c /\
  (forall env a, contribute env 0 a s' = (Err CampaignCompleted, s')) /\
  (forall env, exists e, finalize env 0 s' = (Err e, s')) /\
  (goal c <= raised c ->
     forall env, claim_refund env 0 s' = (Err CampaignSuccessful, s')).
Proof.
  cbv zeta.
  apply (completed_campaign_is_closed Scenario.engine
           [Scenario.call Scenario.bob 200 (CreateCampaign "roof" "a new roof" 50 400)]
           (default (new Scenario.start)
              (exec Scenario.engine Scenario.paid_out (new Scenario.start)))).
  - vm_compute. reflexivity.
  - reflexivity.
  - vm_compute. reflexivity.
Defined.

(** ** What the escrow account can always pay *)

(** X7: the engine never runs dry. In every state reached from the
    constructor - over a ledger whose balances add up to at most a total
    supply in range and in which the escrow account has granted no
    allowance - by successful transactions of callers other than the
    escrow account: the escrow account holds at least what it owes; the
    [claim_refund] of a contributor with an entry in a campaign finalized
    below its goal succeeds, and pays the whole entry to a caller other than
    the escrow account; and the [finalize] of an open campaign by its owner
    after the deadline succeeds and leaves the campaign completed. *)
Theorem refunds_and_payouts_go_through self t tr s env cid c :
  ledger_ok self t ->
  Forall (fun call => call_caller call <> self) tr ->
  exec self tr (new t) = Some s ->
  account_id env = self ->
  get_campaign s cid = Ok c ->
  total_due s <= Token.balance_of (token_contract s) self /\
  (completed c = true -> raised c < goal c ->
   get_contribution s cid (caller env) <> 0 ->
   exists s', claim_refund env cid s = (Ok tt, s') /\
     get_contribution s' cid (caller env) = 0 /\
     (caller env <> self ->
      Token.balance_of (token_contract s') (caller env) =
      Token.balance_of (token_contract s) (caller env) +
      get_contribution s cid (caller env))) /\
  (completed c = false -> caller env = owner c -> deadline c < block_timestamp env ->
   exists s', finalize env cid s = (Ok tt, s') /\
     get_campaign s' cid = Ok (set_completed true c)).
Proof.
  intros Hok Hcallers Hexec Hself.
  rewrite get_campaign_lookup.
  destruct (campaigns s !! N.to_nat cid) as [c0|] eqn:Hc; [|discriminate].
  intros [= ->].
  destruct (sound_exec self t tr s Hok Hcallers Hexec) as [Hinv _ Hsolv].
  pose proof (due_le_total_due_from (contributions s) 0 _ _ _ Hc) as Hdue.
  fold (total_due s) in Hdue. cbn [Nat.add] in Hdue.
  split; [done|]. split.
  - intros Hcompl Hr Hne.
    unfold due in Hdue. apply N.leb_gt in Hr. rewrite Hcompl, Hr, N2Nat.id in Hdue.
    pose proof (get_contribution_le_sum s cid (caller env)) as Hentry.
    destruct (transfer_enough self (caller env) (get_contribution s cid (caller env))
                (token_contract s)) as [t' Ht]; [lia|].
    exists (after_refund env cid t' s).
    rewrite claim_refund_eq, Hc, Hcompl, Hr. cbn [negb].
    apply N.eqb_neq in Hne. rewrite Hne. cbv zeta. rewrite Hself, Ht.
    split; [done|]. split.
    + unfold get_contribution. cbn [after_refund contributions].
      by rewrite lookup_insert_eq.
    + intros Hcaller. cbn [after_refund token_contract].
      apply transfer_Ok in Ht as (_&_&_&Hbal). rewrite Hbal.
      rewrite decide_True by done. by rewrite decide_False by done.
  - intros Hcompl Ho Hd.
    unfold due in Hdue. rewrite Hcompl in Hdue.
    assert (exists t', (if goal c <=? raised c
              then Token.transfer self (owner c) (raised c) (token_contract s) = Ok t'
              else t' = token_contract s)) as [t' Ht].
    { destruct (goal c <=? raised c); [|eauto].
      apply transfer_enough. lia. }
    exists (after_finalize env cid c t' s).
    rewrite finalize_eq, Hc, Hcompl, bool_decide_eq_true_2 by done. cbn [negb].
    apply N.leb_gt in Hd. rewrite Hd. cbv zeta. rewrite Hself.
    split.
    + destruct (goal c <=? raised c); [by rewrite Ht|by subst t'].
    + rewrite get_campaign_lookup. cbn [after_finalize campaigns].
      rewrite list_lookup_insert_eq; [done|]. by eapply lookup_lt_Some.
Qed.

(** X7 on the run [Scenario.failed]: 300 raised for a goal of 1000, the
    campaign finalized; bob can have his 300 back. *)
Lemma refunds_and_payouts_go_through_witness :
  let s := default (new Scenario.start)
             (exec Scenario.engine Scenario.failed (new Scenario.start)) in
  let env := env_of Scenario.engine (Scenario.call Scenario.bob 120 (ClaimRefund 0)) in
  let c := set_completed true (Scenario.well 300) in
  total_due s <= Token.balance_of (token_contract s) Scenario.engine /\
  (completed c = true -> raised c < goal c ->
   get_contribution s 0 (caller env) <> 0 ->
   exists s', claim_refund env 0 s = (Ok tt, s') /\
     get_contribution s' 0 (caller env) = 0 /\
     (caller env <> Scenario.engine ->
      Token.balance_of (token_contract s') (caller env) =
      Token.balance_of (token_contract s) (caller env) +
      get_contribution s 0 (caller env))) /\
  (completed c = false -> caller env = owner c -> deadline c < block_timestamp env ->
   exists s', finalize env 0 s = (Ok tt, s') /\
     get_campaign s' 0 = Ok (set_completed true c)).
Proof.
  cbv zeta.
  apply (refunds_and_payouts_go_through Scenario.engine Scenario.start Scenario.failed).
  - apply start_ledger_ok.
  - unfold Scenario.failed, Scenario.funded. cbn [app].
    repeat (constructor; [vm_compute; discriminate|]). constructor.
  - vm_compute. reflexivity.
  - reflexivity.
  - vm_compute. reflexivity.
Defined.

(** ** Ranges *)

Lemma in_range_step env s op s' :
  in_range s -> step env s op s' -> in_range s'.
Proof.
  intros [Hcamp Hent] Hstep.
  destruct Hstep as [t d g dl Hg Hdl Hcap Hcap'|cid amount c t Hc Hcompl Hd Ht Hr He
                    |cid c t Hc Ho Hcompl Hd Ht|cid c t Hc Hcompl Hr Hne Ht|op f t Hop Hf].
  - split; [|done]. cbn [after_create campaigns].
    intros i c [[Hi Hc]|[-> <-]]%lookup_snoc_Some; [by eapply Hcamp|].
    cbn. repeat split; [done|lia|lia].
  - split.
    + cbn [after_contribute campaigns].
      intros i c' [(<- & <- & _)|[Hne Hi]]%list_lookup_insert_Some; [|by eapply Hcamp].
      destruct (Hcamp _ _ Hc) as (?&?&?). done.
    + cbn [after_contribute contributions].
      intros k v [[<- <-]|[_ Hk]]%lookup_insert_Some; [done|by eapply Hent].
  - split; [|done]. cbn [after_finalize campaigns].
    intros i c' [(<- & <- & _)|[Hne Hi]]%list_lookup_insert_Some; [|by eapply Hcamp].
    destruct (Hcamp _ _ Hc) as (?&?&?). done.
  - split; [done|]. cbn [after_refund contributions].
    intros k v [[<- <-]|[_ Hk]]%lookup_insert_Some; [lia|by eapply Hent].
  - done.
Qed.

(** X8: what is stored stays in the range of its type. In every state
    reached from the constructor by successful transactions there are at
    most [u32::MAX] campaigns; every campaign returned by [get_campaign] has
    a positive goal, a positive deadline and a [raised] that fits a [U256];
    every contribution returned by [get_contribution] fits a [U256]; and
    there is no contribution to a campaign that does not exist. *)
Theorem stored_values_stay_in_range self t tr s :
  exec self tr (new t) = Some s ->
  get_campaign_count s <= u32_max /\
  (forall cid c, get_campaign s cid = Ok c ->
     goal c <> 0 /\ 0 < deadline c /\ raised c <= u256_max) /\
  (forall cid who, get_contribution s cid who <= u256_max) /\
  (forall cid who, get_campaign_count s <= cid -> get_contribution s cid who = 0).
Proof.
  intros Hexec.
  pose proof (store_inv_exec _ _ _ _ Hexec) as [_ Hlen _ Hkeys _].
  assert (in_range s) as [Hcamp Hent].
  { apply (exec_preserves in_range self) with (tr := tr) (s := new t); [|done|].
    - intros call s1 s2 Hs1 Hstep. by eapply in_range_step.
    - split; cbn; done. }
  split; [done|]. split; [|split].
  - intros cid c. rewrite get_campaign_lookup.
    destruct (campaigns s !! N.to_nat cid) as [c0|] eqn:Hc; [|discriminate].
    intros [= ->]. by eapply Hcamp.
  - intros cid who. unfold get_contribution.
    destruct (contributions s !! (cid, who)) as [v|] eqn:Hv; simpl; [by eapply Hent|].
    unfold u256_max. lia.
  - intros cid who Hle. unfold get_contribution, get_campaign_count in *.
    destruct (contributions s !! (cid, who)) as [v|] eqn:Hv; [|done].
    apply Hkeys in Hv. cbn in Hv. lia.
Qed.

(** X8 on the run [Scenario.refunded]. *)
Lemma stored_values_stay_in_range_witness :
  let s := default (new Scenario.start)
             (exec Scenario.engine Scenario.refunded (new Scenario.start)) in
  get_campaign_count s <= u32_max /\
  (forall cid c, get_campaign s cid = Ok c ->
     goal c <> 0 /\ 0 < deadline c /\ raised c <= u256_max) /\
  (forall cid who, get_contribution s cid who <= u256_max) /\
  (forall cid who, get_campaign_count s <= cid -> get_contribution s cid who = 0).
Proof.
  apply (stored_values_stay_in_range Scenario.engine Scenario.start Scenario.refunded).
  vm_compute. reflexivity.
Defined.

(** ** The event log and the store *)

Lemma log_total_snoc f log e : log_total f (log ++ [e]) = log_total f log + f e.
Proof.
  unfold log_total. induction log as [|x log IH]; cbn [app foldr]; [lia|].
  rewrite IH. lia.
Qed.

Lemma created_in_snoc log e :
  created_in (log ++ [e]) =
  created_in log ++ match created_of e with Some x => [x] | None => [] end.
Proof. unfold created_in. rewrite omap_app. by destruct (created_of e) eqn:He; cbn; rewrite He. Qed.

Lemma finalized_in_snoc cid log e :
  finalized_in cid (log ++ [e]) =
  finalized_in cid log ++ match finalized_of cid e with Some b => [b] | None => [] end.
Proof.
  unfold finalized_in. rewrite omap_app.
  by destruct (finalized_of cid e) eqn:He; cbn; rewrite He.
Qed.

Lemma log_inv_new t : log_inv (new t).
Proof.
  split; cbn [new emitted campaigns contributions]; done.
Qed.

Lemma log_inv_step env s op s' :
  log_inv s -> step env s op s' -> log_inv s'.
Proof.
  intros [Hcr Hcamp Hun Hent] Hstep.
  destruct Hstep as [t d g dl Hg Hdl Hcap Hcap'|cid amount c t Hc Hcompl Hd Ht Hr He
                    |cid c t Hc Ho Hcompl Hd Ht|cid c t Hc Hcompl Hr Hne Ht|op f t Hop Hf].
  - (* create_campaign *)
    split; cbn [after_create campaigns contributions emitted]; unfold contributed_in, refunded_in;
      rewrite ?created_in_snoc; intros; rewrite ?log_total_snoc, ?finalized_in_snoc;
      cbn [created_of contributed_of refunded_of finalized_of];
      rewrite ?N.add_0_r, ?app_nil_r.
    + by rewrite fmap_app, Hcr.
    + match goal with H : _ !! _ = Some _ |- _ =>
        apply lookup_snoc_Some in H as [[Hi Hc]|[-> <-]] end.
      * by apply Hcamp.
      * apply Hun. unfold campaigns_len. lia.
    + match goal with H : _ <= _ |- _ =>
        unfold campaigns_len in H;
        cbn [campaigns after_create after_contribute after_finalize] in H; rewrite length_app in H; cbn in H end.
      apply Hun. unfold campaigns_len. lia.
    + apply Hent.
  - (* contribute *)
    pose proof (lookup_campaign_lt _ _ _ Hc) as Hlt.
    split; cbn [after_contribute campaigns contributions emitted];
      unfold contributed_in, refunded_in;
      rewrite ?created_in_snoc; intros; rewrite ?log_total_snoc, ?finalized_in_snoc;
      cbn [created_of contributed_of refunded_of finalized_of];
      rewrite ?N.add_0_r, ?app_nil_r.
    + rewrite Hcr, list_fmap_insert. symmetry. apply list_insert_id.
      by rewrite list_lookup_fmap, Hc.
    + match goal with H : _ !! _ = Some _ |- _ =>
        apply list_lookup_insert_Some in H as [(<- & <- & _)|[Hne Hi]] end.
      * rewrite N2Nat.id, decide_True by done.
        destruct (Hcamp _ _ Hc) as [Hsum Hfin]. rewrite N2Nat.id in Hsum, Hfin.
        cbn [raised completed goal set_raised]. rewrite Hcompl in Hfin |- *.
        split; [unfold contributed_in in Hsum; lia|done].
      * rewrite decide_False by lia. rewrite N.add_0_r. by apply Hcamp.
    + match goal with H : _ <= _ |- _ =>
        unfold campaigns_len in H;
        cbn [campaigns after_create after_contribute after_finalize] in H; rewrite length_insert in H end.
      unfold campaigns_len in Hlt.
      rewrite decide_False by lia. rewrite N.add_0_r. apply Hun. unfold campaigns_len. lia.
    + match goal with |- ledger_sum _ ?j + _ = _ =>
        pose proof (ledger_sum_write (contributions s) cid (caller env)
                      (get_contribution s cid (caller env) + amount) j) as Hw;
        fold (get_contribution s cid (caller env)) in Hw;
        pose proof (Hent j) as Hj end.
      unfold contributed_in, refunded_in in Hj. case_decide; lia.
  - (* finalize *)
    pose proof (lookup_campaign_lt _ _ _ Hc) as Hlt.
    split; cbn [after_finalize campaigns contributions emitted];
      unfold contributed_in, refunded_in;
      rewrite ?created_in_snoc; intros; rewrite ?log_total_snoc, ?finalized_in_snoc;
      cbn [created_of contributed_of refunded_of finalized_of];
      rewrite ?N.add_0_r, ?app_nil_r.
    + rewrite Hcr, list_fmap_insert. symmetry. apply list_insert_id.
      by rewrite list_lookup_fmap, Hc.
    + match goal with H : _ !! _ = Some _ |- _ =>
        apply list_lookup_insert_Some in H as [(<- & <- & _)|[Hne Hi]] end.
      * rewrite N2Nat.id, decide_True by done.
        destruct (Hcamp _ _ Hc) as [Hsum Hfin]. rewrite N2Nat.id in Hsum, Hfin.
        cbn [raised completed goal set_completed]. rewrite Hcompl in Hfin.
        rewrite Hfin. done.
      * rewrite decide_False by lia. rewrite app_nil_r. by apply Hcamp.
    + match goal with H : _ <= _ |- _ =>
        unfold campaigns_len in H;
        cbn [campaigns after_create after_contribute after_finalize] in H; rewrite length_insert in H end.
      unfold campaigns_len in Hlt.
      rewrite decide_False by lia. rewrite app_nil_r. apply Hun. unfold campaigns_len. lia.
    + apply Hent.
  - (* claim_refund *)
    split; cbn [after_refund campaigns contributions emitted];
      unfold contributed_in, refunded_in;
      rewrite ?created_in_snoc; intros; rewrite ?log_total_snoc, ?finalized_in_snoc;
      cbn [created_of contributed_of refunded_of finalized_of];
      rewrite ?N.add_0_r, ?app_nil_r.
    + done.
    + by apply Hcamp.
    + by apply Hun.
    + match goal with |- ledger_sum _ ?j + _ = _ =>
        pose proof (ledger_sum_write (contributions s) cid (caller env) 0 j) as Hw;
        fold (get_contribution s cid (caller env)) in Hw;
        pose proof (Hent j) as Hj end.
      unfold contributed_in, refunded_in in Hj. case_decide; lia.
  - (* a call of the token contract *)
    split; done.
Qed.

Lemma log_inv_exec self t tr s :
  exec self tr (new t) = Some s -> log_inv s.
Proof.
  intros Hexec.
  apply (exec_preserves log_inv self) with (tr := tr) (s := new t); [|done|].
  - intros c s1 s2 Hs1 Hstep. by eapply log_inv_step.
  - apply log_inv_new.
Qed.

(** X9: the event log accounts for the store. In every state reached from
    the constructor by successful transactions, the [CampaignCreated] events
    of the log list, in order, the id, owner, goal and deadline of the
    campaigns returned by [get_all_campaigns]; and for every campaign
    returned by [get_campaign], the amounts of its [ContributionMade] events
    add up to its [raised], its [CampaignFinalized] events are none while it
    is open and exactly one, with the flag [raised >= goal], once it is
    completed, and its contribution entries together with the amounts of
    its [RefundClaimed] events add up to its [raised]. *)
Theorem event_log_accounts_for_the_store self t tr s :
  exec self tr (new t) = Some s ->
  created_in (emitted s) = header <$> get_all_campaigns s /\
  (forall cid c, get_campaign s cid = Ok c ->
     contributed_in cid (emitted s) = raised c /\
     finalized_in cid (emitted s) = (if completed c then [goal c <=? raised c] else []) /\
     ledger_sum (contributions s) cid + refunded_in cid (emitted s) = raised c).
Proof.
  intros [Hcr Hcamp Hun Hent]%log_inv_exec.
  split; [by rewrite get_all_campaigns_eq|].
  intros cid c. rewrite get_campaign_lookup.
  destruct (campaigns s !! N.to_nat cid) as [c0|] eqn:Hc; [|discriminate].
  intros [= ->]. destruct (Hcamp _ _ Hc) as [Hsum Hfin]. rewrite N2Nat.id in Hsum, Hfin.
  split; [done|]. split; [done|]. by rewrite Hent.
Qed.

(** X9 on the run [Scenario.refunded]: 300 contributed, the campaign
    finalized below its goal, the 300 refunded. *)
Lemma event_log_accounts_for_the_store_witness :
  let s := default (new Scenario.start)
             (exec Scenario.engine Scenario.refunded (new Scenario.start)) in
  created_in (emitted s) = header <$> get_all_campaigns s /\
  (forall cid c, get_campaign s cid = Ok c ->
     contributed_in cid (emitted s) = raised c /\
     finalized_in cid (emitted s) = (if completed c then [goal c <=? raised c] else []) /\
     ledger_sum (contributions s) cid + refunded_in cid (emitted s) = raised c).
Proof.
  apply (event_log_accounts_for_the_store Scenario.engine Scenario.start Scenario.refunded).
  vm_compute. reflexivity.
Defined.

(** ** One contributor in the log *)

Lemma entry_in_log_step env s op s' cid who :
  get_contribution s cid who + log_total (refunded_to cid who) (emitted s) =
    log_total (contributed_by cid who) (emitted s) ->
  step env s op s' ->
  get_contribution s' cid who + log_total (refunded_to cid who) (emitted s') =
    log_total (contributed_by cid who) (emitted s').
Proof.
  intros Hs Hstep.
  destruct Hstep as [t d g dl Hg Hdl Hcap Hcap'|cid' amount c t Hc Hcompl Hd Ht Hr He
                    |cid' c t Hc Ho Hcompl Hd Ht|cid' c t Hc Hcompl Hr Hne Ht|op f t Hop Hf];
    unfold get_contribution in *;
    cbn [after_create after_contribute after_finalize after_refund set_token_contract
         contributions emitted];
    unfold get_contribution;
    rewrite ?log_total_snoc; cbn [contributed_by refunded_to]; try lia.
  - destruct (decide ((cid', caller env) = (cid, who))) as [[= -> <-]|Hne].
    + rewrite lookup_insert_eq. simpl. lia.
    + rewrite lookup_insert_ne by done. lia.
  - destruct (decide ((cid', caller env) = (cid, who))) as [[= -> <-]|Hne'].
    + rewrite lookup_insert_eq. simpl. lia.
    + rewrite lookup_insert_ne by done. lia.
Qed.

(** X10: every contributor is accounted for in the log. In every state
    reached from the constructor by successful transactions, the entry
    [get_contribution] returns for a contributor and a campaign, together
    with the amounts of the [RefundClaimed] events of that contributor for
    that campaign, is the total of the amounts of their [ContributionMade]
    events for it: a refund pays back what was put in, no more and no
    less. *)
Theorem entry_is_contributed_less_refunded self t tr s :
  exec self tr (new t) = Some s ->
  forall cid who,
    get_contribution s cid who + log_total (refunded_to cid who) (emitted s) =
    log_total (contributed_by cid who) (emitted s).
Proof.
  intros Hexec cid who.
  apply (exec_preserves
           (fun s => get_contribution s cid who + log_total (refunded_to cid who) (emitted s) =
                     log_total (contributed_by cid who) (emitted s)) self)
    with (tr := tr) (s := new t); [|done|done].
  intros call s1 s2 Hs1 Hstep. by eapply entry_in_log_step.
Qed.

(** X10 on the run [Scenario.refunded], for bob: 300 put in, 300 paid back,
    nothing left in the entry. *)
Lemma entry_is_contributed_less_refunded_witness :
  let s := default (new Scenario.start)
             (exec Scenario.engine Scenario.refunded (new Scenario.start)) in
  get_contribution s 0 Scenario.bob + log_total (refunded_to 0 Scenario.bob) (emitted s) =
  log_total (contributed_by 0 Scenario.bob) (emitted s).
Proof.
  apply (entry_is_contributed_less_refunded Scenario.engine Scenario.start Scenario.refunded).
  vm_compute. reflexivity.
Defined.

(** ** The errors of a message *)

(** X11: each message fails only with its own errors and those of the token
    call it makes. [create_campaign] fails only with [InvalidParameters];
    [contribute] only with [CampaignNotFound], [CampaignCompleted],
    [DeadlineReached], [Overflow] or an error of [transfer_from];
    [finalize] only with [CampaignNotFound], [OnlyOwner],
    [CampaignCompleted], [DeadlineNotReached] or the error of [transfer];
    [claim_refund] only with [CampaignNotFound], [CampaignNotCompleted],
    [CampaignSuccessful], [NoContribution] or the error of [transfer]; and
    neither [finalize] nor [claim_refund] ever aborts. *)
Theorem messages_fail_only_with_their_errors :
  (forall env t d g dl s e,
     (create_campaign env t d g dl s).1 = Err e -> e = InvalidParameters) /\
  (forall env cid a s e,
     (contribute env cid a s).1 = Err e ->
     In e [CampaignNotFound; CampaignCompleted; DeadlineReached; Overflow;
           InsufficientAllowance; InsufficientBalance]) /\
  (forall env cid s e,
     (finalize env cid s).1 = Err e ->
     In e [CampaignNotFound; OnlyOwner; CampaignCompleted; DeadlineNotReached;
           InsufficientBalance]) /\
  (forall env cid s e,
     (claim_refund env cid s).1 = Err e ->
     In e [CampaignNotFound; CampaignNotCompleted; CampaignSuccessful; NoContribution;
           InsufficientBalance]) /\
  (forall env cid s, (finalize env cid s).1 <> Panic) /\
  (forall env cid s, (claim_refund env cid s).1 <> Panic).
Proof.
  split; [|split; [|split; [|split; [|split]]]].
  - intros env t d g dl s e. rewrite create_campaign_eq.
    destruct (_ || _); [by intros [= <-]|].
    destruct (u32_max <=? campaigns_len s); [done|].
    destruct (u32_max <=? next_campaign_id s); done.
  - intros env cid a s e. rewrite contribute_eq.
    destruct (campaigns s !! N.to_nat cid) as [c|]; [|intros [= <-]; cbn; auto].
    destruct (completed c); [intros [= <-]; cbn; auto|].
    destruct (deadline c <? block_timestamp env); [intros [= <-]; cbn; auto|].
    destruct (Token.transfer_from _ _ _ _ _) as [t|e'|] eqn:Ht; [| |done].
    + destruct (raised c + a <=? u256_max); [|intros [= <-]; cbn; auto].
      destruct (_ <=? u256_max); done.
    + intros [= <-]. apply transfer_from_Err in Ht as [->| ->]; cbn; auto 10.
  - intros env cid s e. rewrite finalize_eq.
    destruct (campaigns s !! N.to_nat cid) as [c|]; [|intros [= <-]; cbn; auto].
    destruct (negb _); [intros [= <-]; cbn; auto|].
    destruct (completed c); [intros [= <-]; cbn; auto|].
    destruct (block_timestamp env <=? deadline c); [intros [= <-]; cbn; auto|]. cbv zeta.
    destruct (goal c <=? raised c); [|done].
    destruct (Token.transfer _ _ _ _) as [t|e'|] eqn:Ht; [done| |done].
    intros [= <-]. apply transfer_Err in Ht as [-> _]. cbn; auto 10.
  - intros env cid s e. rewrite claim_refund_eq.
    destruct (campaigns s !! N.to_nat cid) as [c|]; [|intros [= <-]; cbn; auto].
    destruct (negb _); [intros [= <-]; cbn; auto|].
    destruct (goal c <=? raised c); [intros [= <-]; cbn; auto|].
    destruct (_ =? 0); [intros [= <-]; cbn; auto|]. cbv zeta.
    destruct (Token.transfer _ _ _ _) as [t|e'|] eqn:Ht; [done| |done].
    intros [= <-]. apply transfer_Err in Ht as [-> _]. cbn; auto 10.
  - intros env cid s. rewrite finalize_eq.
    destruct (campaigns s !! N.to_nat cid) as [c|]; [|done].
    destruct (negb _); [done|].
    destruct (completed c); [done|].
    destruct (block_timestamp env <=? deadline c); [done|]. cbv zeta.
    destruct (goal c <=? raised c); [|done].
    destruct (Token.transfer _ _ _ _) as [t|e'|] eqn:Ht; [done|done|].
    by apply transfer_not_Panic in Ht.
  - intros env cid s. rewrite claim_refund_eq.
    destruct (campaigns s !! N.to_nat cid) as [c|]; [|done].
    destruct (negb _); [done|].
    destruct (goal c <=? raised c); [done|].
    destruct (_ =? 0); [done|]. cbv zeta.
    destruct (Token.transfer _ _ _ _) as [t|e'|] eqn:Ht; [done|done|].
    by apply transfer_not_Panic in Ht.
Qed.

(** ** A contribution of nothing *)

(** X12: no least amount is asked for. On a campaign that is not completed
    and whose deadline has not passed, with [raised] and the entry of the
    caller in range, [contribute] with amount 0 succeeds, whoever calls and
    whatever they hold or have approved: the campaign, every contribution
    read by [get_contribution] and every token balance and allowance are as
    before, and one [ContributionMade] event with amount 0 is logged. *)
Theorem contribute_nothing_succeeds env cid s c :
  get_campaign s cid = Ok c ->
  completed c = false ->
  block_timestamp env <= deadline c ->
  raised c <= u256_max ->
  get_contribution s cid (caller env) <= u256_max ->
  exists s', contribute env cid 0 s = (Ok tt, s') /\
    get_all_campaigns s' = get_all_campaigns s /\
    (forall cid' who, get_contribution s' cid' who = get_contribution s cid' who) /\
    (forall who, Token.balance_of (token_contract s') who =
                 Token.balance_of (token_contract s) who) /\
    (forall holder spender, Token.allowance (token_contract s') holder spender =
                            Token.allowance (token_contract s) holder spender) /\
    emitted s' = emitted s ++ [ContributionMade cid (caller env) 0].
Proof.
  rewrite get_campaign_lookup.
  destruct (campaigns s !! N.to_nat cid) as [c0|] eqn:Hc; [|discriminate].
  intros [= ->] Hcompl Hd Hr He.
  destruct (transfer_from_enough (account_id env) (caller env) (account_id env) 0
              (token_contract s)) as [t' Ht]; [lia..|].
  exists (after_contribute env cid 0 c t' s).
  rewrite contribute_eq, Hc, Hcompl, Ht, !N.add_0_r.
  apply N.ltb_ge in Hd. apply N.leb_le in Hr, He. rewrite Hd, Hr, He.
  split; [done|].
  apply transfer_from_Ok in Ht as (_&t1&(_&Hall&_&Hbal)%transfer_Ok&->).
  split; [|split; [|split; [|split]]].
  - rewrite !get_all_campaigns_eq. cbn [after_contribute campaigns].
    apply list_insert_id. rewrite Hc. f_equal. destruct c; cbn. by rewrite N.add_0_r.
  - intros cid' who. unfold get_contribution. cbn [after_contribute contributions].
    destruct (decide ((cid, caller env) = (cid', who))) as [[= <- <-]|Hne].
    + rewrite lookup_insert_eq. simpl. by rewrite N.add_0_r.
    + by rewrite lookup_insert_ne.
  - intros who. cbn [after_contribute token_contract].
    change (Token.balance_of (Token.set_allowance _ _ _ t1) who)
      with (Token.balance_of t1 who).
    rewrite Hbal. repeat case_decide; lia.
  - intros holder spender. cbn [after_contribute token_contract].
    rewrite allowance_set_allowance.
    destruct (decide ((holder, spender) = (caller env, account_id env))) as [[= -> ->]|Hne].
    + lia.
    + unfold Token.allowance. by rewrite Hall.
  - done.
Qed.

(** X12 on the run [Scenario.funded]: carol, who holds no tokens and has
    approved none, contributes nothing to the campaign of alice. *)
Lemma contribute_nothing_succeeds_witness :
  let s := default (new Scenario.start)
             (exec Scenario.engine Scenario.funded (new Scenario.start)) in
  let env := env_of Scenario.engine (Scenario.call Scenario.carol 50 (Contribute 0 0)) in
  exists s', contribute env 0 0 s = (Ok tt, s') /\
    get_all_campaigns s' = get_all_campaigns s /\
    (forall cid' who, get_contribution s' cid' who = get_contribution s cid' who) /\
    (forall who, Token.balance_of (token_contract s') who =
                 Token.balance_of (token_contract s) who) /\
    (forall holder spender, Token.allowance (token_contract s') holder spender =
                            Token.allowance (token_contract s) holder spender) /\
    emitted s' = emitted s ++ [ContributionMade 0 (caller env) 0].
Proof.
  cbv zeta.
  apply (contribute_nothing_succeeds
           (env_of Scenario.engine (Scenario.call Scenario.carol 50 (Contribute 0 0)))
           0 _ (Scenario.well 300)).
  - vm_compute. reflexivity.
  - reflexivity.
  - vm_compute. discriminate.
  - vm_compute. discriminate.
  - vm_compute. discriminate.
Defined.

(** ** Refunds and payouts exclude each other *)

Lemma refunds_justified_step env s op s' :
  refunds_justified s -> step env s op s' -> refunds_justified s'.
Proof.
  intros Hinv Hstep cid who a Hin.
  assert (RefundClaimed cid who a ∈ emitted s ->
          forall l : list Campaign,
            (forall i c, campaigns s !! i = Some c -> completed c = true ->
                       l !! i = Some c) ->
          a <> 0 /\ exists c, l !! N.to_nat cid = Some c /\
            completed c = true /\ raised c < goal c) as Hold.
  { intros Hin' l Hl. destruct (Hinv _ _ _ Hin') as (Ha&c&Hc&Hcompl&Hr). eauto 10. }
  destruct Hstep as [t d g dl Hg Hdl Hcap Hcap'|cid' amount c t Hc Hcompl Hd Ht Hr He
                    |cid' c t Hc Ho Hcompl Hd Ht|cid' c t Hc Hcompl Hr Hne Ht|op f t Hop Hf];
    cbn [after_create after_contribute after_finalize after_refund set_token_contract
         campaigns emitted] in *;
    try (apply elem_of_app in Hin as [Hin|Hin%list_elem_of_singleton]; [|try discriminate]).
  - apply Hold; [done|]. intros i c Hc _.
    rewrite lookup_app_l; [done|]. by eapply lookup_lt_Some.
  - apply Hold; [done|]. intros i c0 Hc0 Hcompl0.
    rewrite list_lookup_insert_ne; [done|]. intros <-. congruence.
  - apply Hold; [done|]. intros i c0 Hc0 Hcompl0.
    rewrite list_lookup_insert_ne; [done|]. intros <-. congruence.
  - by apply Hold.
  - injection Hin as -> -> ->. eauto 10.
  - by apply Hold.
Qed.

Lemma finalized_in_elem cid log b :
  b ∈ finalized_in cid log <-> CampaignFinalized cid b ∈ log.
Proof.
  unfold finalized_in. rewrite list_elem_of_omap. split.
  - intros (e&He&Hf). destruct e as [| |i b'|]; try discriminate.
    cbn in Hf. case_decide; [|discriminate]. by simplify_eq.
  - intros He. exists (CampaignFinalized cid b). split; [done|].
    cbn. by rewrite decide_True.
Qed.

(** X16: refunds and the payout exclude each other. In every state reached
    from the constructor by successful transactions, a [RefundClaimed] event
    in the log has a positive amount and belongs to a campaign that is
    completed with [raised] below its goal, whose finalization is in the log
    with the flag [false] and not with the flag [true]: no contributor was
    ever refunded from a campaign that paid out to its owner. *)
Theorem refunds_only_from_failed_campaigns self t tr s cid who a :
  exec self tr (new t) = Some s ->
  RefundClaimed cid who a ∈ emitted s ->
  a <> 0 /\
  (exists c, get_campaign s cid = Ok c /\ completed c = true /\ raised c < goal c) /\
  CampaignFinalized cid false ∈ emitted s /\
  CampaignFinalized cid true ∉ emitted s.
Proof.
  intros Hexec Hin.
  assert (refunds_justified s) as Hinv.
  { apply (exec_preserves refunds_justified self) with (tr := tr) (s := new t); [|done|].
    - intros call s1 s2 Hs1 Hstep. by eapply refunds_justified_step.
    - intros cid' who' a' Hin'. cbn in Hin'. by apply not_elem_of_nil in Hin'. }
  destruct (Hinv _ _ _ Hin) as (Ha&c&Hc&Hcompl&Hr).
  destruct (log_inv_exec _ _ _ _ Hexec) as [_ Hcamp _ _].
  destruct (Hcamp _ _ Hc) as [_ Hfin]. rewrite N2Nat.id, Hcompl in Hfin.
  apply N.leb_gt in Hr. rewrite Hr in Hfin. apply N.leb_gt in Hr.
  split; [done|]. split; [|split].
  - exists c. by rewrite get_campaign_lookup, Hc.
  - apply finalized_in_elem. rewrite Hfin. apply list_elem_of_here.
  - intros Ht%finalized_in_elem. rewrite Hfin in Ht.
    by apply list_elem_of_singleton in Ht.
Qed.

(** X16 on the run [Scenario.refunded] and the refund of 300 to bob. *)
Lemma refunds_only_from_failed_campaigns_witness :
  let s := default (new Scenario.start)
             (exec Scenario.engine Scenario.refunded (new Scenario.start)) in
  300 <> 0 /\
  (exists c, get_campaign s 0 = Ok c /\ completed c = true /\ raised c < goal c) /\
  CampaignFinalized 0 false ∈ emitted s /\
  CampaignFinalized 0 true ∉ emitted s.
Proof.
  cbv zeta.
  apply (refunds_only_from_failed_campaigns Scenario.engine Scenario.start Scenario.refunded
           _ 0 Scenario.bob 300).
  - vm_compute. reflexivity.
  - apply list_elem_of_In. vm_compute. auto 10.
Defined.

(** X17: a finalization below the goal moves no tokens. A successful
    [finalize] of a campaign whose [raised] is below its goal leaves the
    token contract and every contribution entry as they are and the campaign
    completed with its other fields unchanged: what was contributed stays
    with the escrow account, recorded entry by entry. *)
Theorem finalize_below_goal_moves_no_tokens env cid s s' c :
  get_campaign s cid = Ok c ->
  raised c < goal c ->
  finalize env cid s = (Ok tt, s') ->
  token_contract s' = token_contract s /\
  contributions s' = contributions s /\
  get_campaign s' cid = Ok (set_completed true c) /\
  emitted s' = emitted s ++ [CampaignFinalized cid false].
Proof.
  rewrite get_campaign_lookup.
  destruct (campaigns s !! N.to_nat cid) as [c0|] eqn:Hc; [|discriminate].
  intros [= Heq] Hr (c1&t&Hc1&_&_&_&Ht&->)%finalize_Ok. subst c0.
  assert (c1 = c) as -> by congruence.
  apply N.leb_gt in Hr. rewrite Hr in Ht. subst t.
  cbn [after_finalize token_contract contributions emitted]. rewrite Hr.
  repeat split; try done.
  rewrite get_campaign_lookup. cbn [after_finalize campaigns].
  rewrite list_lookup_insert_eq; [done|]. by eapply lookup_lt_Some.
Qed.

(** X17 on the finalization that ends the run [Scenario.failed]. *)
Lemma finalize_below_goal_moves_no_tokens_witness :
  let s := default (new Scenario.start)
             (exec Scenario.engine Scenario.funded (new Scenario.start)) in
  let s' := default (new Scenario.start)
              (exec Scenario.engine Scenario.failed (new Scenario.start)) in
  token_contract s' = token_contract s /\
  contributions s' = contributions s /\
  get_campaign s' 0 = Ok (set_completed true (Scenario.well 300)) /\
  emitted s' = emitted s ++ [CampaignFinalized 0 false].
Proof.
  cbv zeta.
  apply (finalize_below_goal_moves_no_tokens
           (env_of Scenario.engine (Scenario.call Scenario.alice 111 (Finalize 0)))).
  - vm_compute. reflexivity.
  - vm_compute. reflexivity.
  - vm_compute. reflexivity.
Defined.

(** * Properties of the frontend helpers *)

(** X13: [formatTokenAmount] shows the whole tokens of the first limb. Of
    the limbs of an amount it reads the first one only, whatever the others
    hold, and of that limb it drops what is below one token: an amount whose
    first limb is [q * 10^decimals + r] with [r] below [10^decimals] is
    shown as [q]; an empty array is shown as 0. *)
Theorem formatTokenAmount_shows_whole_tokens_of_first_limb (q r : Z) rest decimals :
  (0 <= q)%Z ->
  (0 <= r < 10 ^ Z.of_N decimals)%Z ->
  Frontend.formatTokenAmount ((q * 10 ^ Z.of_N decimals + r)%Z :: rest) decimals = pretty q /\
  Frontend.formatTokenAmount [] decimals = "0".
Proof.
  intros Hq Hr. unfold Frontend.formatTokenAmount. cbn [lookup list_lookup default].
  unfold Datatypes.id. split.
  - f_equal. symmetry.
    assert (0 < 10 ^ Z.of_N decimals)%Z as Hpos by lia.
    generalize dependent (10 ^ Z.of_N decimals)%Z. intros b Hr Hpos.
    apply (Z.quot_unique _ _ _ r); [nia|lia|ring].
  - simpl. by rewrite Z.quot_0_l by lia.
Qed.

(** X13 on an amount of 1234567 base units of a token with 3 decimals, held
    with a second limb that is not zero: 1234 is shown. *)
Lemma formatTokenAmount_shows_whole_tokens_of_first_limb_witness :
  Frontend.formatTokenAmount [1234567; 1; 0; 0]%Z 3 = "1234" /\
  Frontend.formatTokenAmount [] 3 = "0".
Proof.
  apply (formatTokenAmount_shows_whole_tokens_of_first_limb 1234 567 [1; 0; 0]%Z 3).
  - lia.
  - vm_compute. split; [discriminate|reflexivity].
Defined.

Lemma hex_byte_length b :
  length (Frontend.padStart 2 "0" (Frontend.toString16 b)) = 2%nat.
Proof. by destruct b. Qed.

Lemma hex_of_app a b : Frontend.hex_of (a ++ b) = Frontend.hex_of a ++ Frontend.hex_of b.
Proof. unfold Frontend.hex_of. by rewrite map_app, concat_app. Qed.

Lemma hex_of_length a : length (Frontend.hex_of a) = (2 * length a)%nat.
Proof.
  induction a as [|b a IH]; [done|].
  change (Frontend.hex_of (b :: a))
    with (Frontend.padStart 2 "0" (Frontend.toString16 b) ++ Frontend.hex_of a).
  rewrite length_app, hex_byte_length, IH. cbn [length]. lia.
Qed.

(** X14: [formatAddress] shows the first three and the last two bytes of an
    address. For an address made of three bytes [p], any bytes [mid] and
    two bytes [q], the result is "0x", the six hex digits of [p], "..." and
    the four hex digits of [q]: the bytes in between do not show, and two
    addresses that differ only there are displayed alike. *)
Theorem formatAddress_shows_first_three_and_last_two p mid q :
  length p = 3%nat ->
  length q = 2%nat ->
  Frontend.formatAddress (p ++ mid ++ q) =
    String.string_of_list_ascii
      (String.list_ascii_of_string "0x" ++ Frontend.hex_of p ++
       String.list_ascii_of_string "..." ++ Frontend.hex_of q) /\
  forall mid', Frontend.formatAddress (p ++ mid' ++ q) = Frontend.formatAddress (p ++ mid ++ q).
Proof.
  intros Hp Hq.
  assert (forall m, Frontend.formatAddress (p ++ m ++ q) =
            String.string_of_list_ascii
              (String.list_ascii_of_string "0x" ++ Frontend.hex_of p ++
               String.list_ascii_of_string "..." ++ Frontend.hex_of q)) as Hfmt.
  { intros m. unfold Frontend.formatAddress. cbv zeta. do 2 f_equal.
    rewrite !hex_of_app, !length_app, !hex_of_length, Hp, Hq.
    f_equal.
    - rewrite take_app_length'; [done|]. by rewrite hex_of_length, Hp.
    - f_equal. rewrite app_assoc. rewrite drop_app_length'; [done|].
      rewrite length_app, !hex_of_length, Hp. lia. }
  split; [apply Hfmt|]. intros mid'. by rewrite !Hfmt.
Qed.

(** X14 on an address of twenty bytes. *)
Lemma formatAddress_shows_first_three_and_last_two_witness :
  let address :=
    [Byte.x12; Byte.x34; Byte.x56] ++
    [Byte.x00; Byte.x01; Byte.x02; Byte.x03; Byte.x04; Byte.x05; Byte.x06; Byte.x07;
     Byte.x08; Byte.x09; Byte.x0a; Byte.x0b; Byte.x0c; Byte.x0d; Byte.x0e] ++
    [Byte.xcd; Byte.xef] in
  Frontend.formatAddress address = "0x123456...cdef".
Proof.
  cbv zeta.
  exact (proj1 (formatAddress_shows_first_three_and_last_two
                  [Byte.x12; Byte.x34; Byte.x56]
                  [Byte.x00; Byte.x01; Byte.x02; Byte.x03; Byte.x04; Byte.x05; Byte.x06;
                   Byte.x07; Byte.x08; Byte.x09; Byte.x0a; Byte.x0b; Byte.x0c; Byte.x0d;
                   Byte.x0e]
                  [Byte.xcd; Byte.xef] eq_refl eq_refl)).
Defined.

(** X15: the tabs of the campaign list, fed with the answer of
    [get_all_campaigns]. [myCampaigns] holds exactly the campaigns owned by
    the signer, and none without a signer, so the count on the tab "my" is
    at most the count [get_campaign_count] on the tab "browse"; the tab
    "browse" shows its notice exactly when the engine has no campaign; the
    tab "my" shows its notice exactly when the signer owns no campaign, and
    as soon as the signer owns one it shows a card for every campaign of
    the engine, those of other owners included. *)
Theorem my_tab_shows_every_campaign s user :
  let campaigns := get_all_campaigns s in
  (forall c, c ∈ Frontend.myCampaigns (Some user) campaigns <->
             c ∈ campaigns /\ owner c = user) /\
  Frontend.myCampaigns None campaigns = [] /\
  N.of_nat (Frontend.myCampaignCount (Some user) campaigns) <= get_campaign_count s /\
  (Frontend.browse_tab campaigns = Frontend.NoCampaignsYet <-> get_campaign_count s = 0) /\
  (Frontend.my_tab (Some user) campaigns = Frontend.NoCampaignsYet <->
     forall c, c ∈ campaigns -> owner c <> user) /\
  (forall c, c ∈ campaigns -> owner c = user ->
     Frontend.my_tab (Some user) campaigns = Frontend.Cards campaigns).
Proof.
  cbv zeta. rewrite get_all_campaigns_eq.
  unfold Frontend.myCampaignCount, Frontend.my_tab, Frontend.browse_tab,
    get_campaign_count, campaigns_len. cbn [Frontend.myCampaigns].
  assert (forall c, c ∈ filter (fun c => owner c = user) (campaigns s) <->
                    c ∈ campaigns s /\ owner c = user) as Hin.
  { intros c. rewrite list_elem_of_filter. tauto. }
  split; [done|]. split; [done|]. split; [|split; [|split]].
  - pose proof (length_filter (fun c => owner c = user) (campaigns s)). lia.
  - case_decide; split; try done; lia.
  - case_decide as Hlen; split; try done.
    + intros _ c Hc Ho. apply length_zero_iff_nil in Hlen.
      assert (c ∈ filter (fun c => owner c = user) (campaigns s)) as Hc' by by apply Hin.
      rewrite Hlen in Hc'. by apply not_elem_of_nil in Hc'.
    + intros Hall. exfalso.
      destruct (filter (fun c => owner c = user) (campaigns s)) as [|c l] eqn:Hf;
        [by apply Hlen|].
      assert (c ∈ campaigns s /\ owner c = user) as [Hc' Ho].
      { apply Hin. apply list_elem_of_here. }
      by apply (Hall c).
  - intros c Hc Ho. rewrite decide_False; [done|].
    intros Hlen%length_zero_iff_nil.
    assert (c ∈ filter (fun c => owner c = user) (campaigns s)) as Hc' by by apply Hin.
    rewrite Hlen in Hc'. by apply not_elem_of_nil in Hc'.
Qed.
